(** * Temporal linking of ultrack: [ultrack/core/linking/processing.py]

    A shallow embedding of [_compute_features] and [_process], the worker
    that links the nodes of time [t] to the nodes of time [t + 1].

    Conventions of the embedding:
    - Python [int] is [Z]; array shapes and row indices are [nat];
    - [float] values are exact rationals [Q], so the rounding of [float32]
      and [float64] arithmetic is left out; the only non-finite value the
      code ever tests for, the infinite distance that the k-d tree returns
      for a missing neighbour, is the constructor [Inf] of [dist];
    - a numpy array of rank two is a [list] of rows; the rank-one empty
      array [np.asarray([])] is the empty list of rows;
    - exceptions are values of [error], threaded by the [result] monad;
    - the SQL store is a record of its two tables, passed explicitly. *)

From Stdlib Require Import List ZArith QArith Qabs Qround Lia Lqa Bool.
From Stdlib Require Import Sorted Permutation.
Import ListNotations.

Set Implicit Arguments.

(** ** Exceptions *)

Inductive error : Set := IndexError | ValueError.

Inductive result (A : Type) : Type :=
| Ok (a : A)
| Err (e : error).

Arguments Ok {A} a.
Arguments Err {A} e.

Definition bind {A B : Type} (c : result A) (k : A -> result B) : result B :=
  match c with
  | Ok a => k a
  | Err e => Err e
  end.

Declare Scope result_scope.
Delimit Scope result_scope with result.
Notation "x <- c ;; k" := (bind c (fun x => k))
  (at level 61, c at next level, right associativity) : result_scope.
Notation "' p <- c ;; k" := (bind c (fun x => match x with p => k end))
  (at level 61, p pattern, c at next level, right associativity) : result_scope.
Local Open Scope result_scope.

(** [[f(x) for x in xs]] where [f] may raise: the first exception wins. *)
Fixpoint mapM {A B : Type} (f : A -> result B) (l : list A) : result (list B) :=
  match l with
  | [] => Ok []
  | x :: xs => y <- f x ;; ys <- mapM f xs ;; Ok (y :: ys)
  end.

(** ** Python sequences *)

Module Py.

(** [l[-n:]] for [n >= 0].  [l[-0:]] is [l[0:]], the whole sequence. *)
Definition slice_last {A : Type} (n : nat) (l : list A) : list A :=
  match n with
  | O => l
  | S _ => skipn (length l - n) l
  end.

(** [l[:m]] for a Python integer [m]; a negative [m] counts from the end. *)
Definition slice_to {A : Type} (m : Z) (l : list A) : list A :=
  if (0 <=? m)%Z then firstn (Z.to_nat m) l
  else firstn (length l - Z.to_nat (- m)) l.

(** [enumerate(l)], counting from [i]. *)
Fixpoint enumerate_from {A : Type} (i : nat) (l : list A) : list (nat * A) :=
  match l with
  | [] => []
  | x :: xs => (i, x) :: enumerate_from (S i) xs
  end.

Definition enumerate {A : Type} (l : list A) : list (nat * A) :=
  enumerate_from 0 l.

(** Stable insertion into a list sorted by the strict order [lt]: the new
    element, which came first in the input, goes before the elements that
    are not smaller than it. *)
Fixpoint insert {A : Type} (lt : A -> A -> bool) (x : A) (l : list A) : list A :=
  match l with
  | [] => [x]
  | y :: l' => if lt y x then y :: insert lt x l' else x :: l
  end.

(** [sorted(l)]: stable, ascending, and using only [<] as Python does. *)
Definition sorted {A : Type} (lt : A -> A -> bool) (l : list A) : list A :=
  fold_right (insert lt) [] l.

(** [sorted(l, reverse=True)]: stable as well, elements that compare equal
    keep their input order. *)
Definition sorted_reverse {A : Type} (lt : A -> A -> bool) (l : list A) : list A :=
  sorted (fun a b => lt b a) l.

End Py.

(** ** numpy on rows *)

Module Np.

(** [zip]-wise application on rows of equal length. *)
Fixpoint map2 {A B C : Type} (f : A -> B -> C) (a : list A) (b : list B) : list C :=
  match a, b with
  | x :: a', y :: b' => f x y :: map2 f a' b'
  | _, _ => []
  end.

(** [a op b] on the trailing axis: equal lengths, or one operand of length
    one that is stretched; anything else is a broadcast error. *)
Definition broadcast {A : Type} (f : A -> A -> A) (a b : list A) : result (list A) :=
  if length a =? length b then Ok (map2 f a b)
  else match a, b with
       | [x], _ => Ok (map (f x) b)
       | _, [y] => Ok (map (fun x => f x y) a)
       | _, _ => Err ValueError
       end.

(** [a op= b] on the trailing axis: the result must have the shape of [a],
    so only [b] can be stretched. *)
Definition inplace {A B : Type} (f : A -> B -> A) (a : list A) (b : list B) : result (list A) :=
  if length b =? length a then Ok (map2 f a b)
  else match b with
       | [y] => Ok (map (fun x => f x y) a)
       | _ => Err ValueError
       end.

(** [np.asarray(rows)] of a list of sequences: the rows must have one
    length; no row at all gives the rank-one empty array. *)
Definition asarray {A : Type} (rows : list (list A)) : result (list (list A)) :=
  match rows with
  | [] => Ok []
  | r :: rs =>
      if forallb (fun r' => length r' =? length r) rs then Ok rows
      else Err ValueError
  end.

(** [np.stack(rows, axis=0)]: at least one array, all of one shape. *)
Definition stack {A : Type} (rows : list (list A)) : result (list (list A)) :=
  match rows with
  | [] => Err ValueError
  | r :: rs =>
      if forallb (fun r' => length r' =? length r) rs then Ok rows
      else Err ValueError
  end.

(** [a.shape[1]]: the rank-one empty array has no second axis. *)
Definition shape1 {A : Type} (a : list (list A)) : result nat :=
  match a with
  | [] => Err IndexError
  | r :: _ => Ok (length r)
  end.

(** [a[idx]] along the first axis. *)
Definition take {A : Type} (a : list A) (idx : nat) : result A :=
  match nth_error a idx with
  | Some x => Ok x
  | None => Err IndexError
  end.

(** [row[mask]] with a boolean mask: the mask must have the row's length. *)
Definition select {A : Type} (row : list A) (mask : list bool) : result (list A) :=
  if length mask =? length row
  then Ok (map fst (filter snd (combine row mask)))
  else Err IndexError.

Definition fmax (a b : Q) : Q := if Qle_bool a b then b else a.

(** [row.max()]: a reduction over no element has no identity. *)
Definition max (row : list Q) : result Q :=
  match row with
  | [] => Err ValueError
  | x :: xs => Ok (fold_left fmax xs x)
  end.

(** [np.round(q).astype(int)]: to the nearest integer, halves to even. *)
Definition round (q : Q) : Z :=
  let f := Qfloor q in
  match ((q - inject_Z f) ?= (1 # 2))%Q with
  | Lt => f
  | Gt => (f + 1)%Z
  | Eq => if Z.even f then f else (f + 1)%Z
  end.

End Np.

(** ** Data model *)

(** [ultrack.core.segmentation.node.Node], declared outside this file: the
    attributes that [_process] reads.  Its methods are parameters of the
    section [Linking] below. *)
Record Node : Type := mkNode {
  id : Z;
  centroid : list Q;
  bbox : list Z
}.

(** [ultrack.core.database.NodeDB]: a row of the node table, with the
    columns that lines 79 to 87 query. *)
Record NodeDB : Type := mkNodeDB {
  t : Z;
  pickle : Node;
  z_shift : Q;
  y_shift : Q;
  x_shift : Q
}.

(** [ultrack.core.database.LinkDB]: a row of the link table, as the data
    frame of line 168 holds it; [np.asarray] over tuples of floats and ints
    gives one array of floats. *)
Record LinkDB : Type := mkLinkDB {
  weight : Q;
  source_id : Q;
  target_id : Q
}.

(** The store at [db_path]: the node table and the link table. *)
Record Database : Type := mkDatabase {
  nodes : list NodeDB;
  links : list LinkDB
}.

(** [ultrack.config.config.LinkingConfig]: the options that [_process]
    reads. *)
Record LinkingConfig : Type := mkLinkingConfig {
  max_neighbors : Z;
  max_distance : Q;
  distance_weight : Q;
  z_score_threshold : Q
}.

(** A distance as the k-d tree returns it. *)
Inductive dist : Type :=
| Finite (d : Q)
| Inf.

Definition isinf (d : dist) : bool :=
  match d with
  | Finite _ => false
  | Inf => true
  end.

Definition Qltb (a b : Q) : bool := negb (Qle_bool b a).

(** The tuples [(edge_weight, -neigh_dist, neigh.id, node.id)] that
    [_process] sorts. *)
Definition candidate : Type := (Q * Q * Z * Z)%type.

(** [a < b] on these tuples, as Python compares tuples: the first position
    where the two differ (by [==]) decides, by [<]. *)
Definition tuple_lt (a b : candidate) : bool :=
  let '(a0, a1, a2, a3) := a in
  let '(b0, b1, b2, b3) := b in
  if negb (Qeq_bool a0 b0) then Qltb a0 b0
  else if negb (Qeq_bool a1 b1) then Qltb a1 b1
  else if negb (a2 =? b2)%Z then (a2 <? b2)%Z
  else (a3 <? b3)%Z.

(** ** The worker *)

Section Linking.

(** What [_process] takes from outside this file: the image frames and
    the methods of [Node] ([IoU], [intensity_mean], [intensity_std]), and
    the square root of the Euclidean metric of the k-d tree. *)
Variable Frame : Type.
Variable IoU : Node -> Node -> Q.
Variable intensity_mean : Node -> list Frame -> list Q.
Variable intensity_std : Node -> list Frame -> list Q.
Variable np_sqrt : Q -> Q.

(** An image source is indexed by time. *)
Definition Image : Type := Z -> Frame.

(** *** [scipy.spatial.KDTree]

    The tree is modelled by what its documentation promises of [query]:
    for each point the [k] nearest data points at a distance below
    [distance_upper_bound], nearest first, and for every missing neighbour
    an infinite distance with the index [n], the number of data points. *)

Record KDTree : Type := mkKDTree {
  data : list (list Q);
  m : nat
}.

(** [KDTree(data)]: the data must be of shape [(n, m)]. *)
Definition KDTree_init (pts : list (list Q)) : result KDTree :=
  match pts with
  | [] => Err ValueError
  | p :: _ => Ok (mkKDTree pts (length p))
  end.

Definition distance (x y : list Q) : Q :=
  np_sqrt (fold_right Qplus 0 (Np.map2 (fun a b => (a - b) * (a - b)) x y)).

Definition query_point (tree : KDTree) (k : nat) (distance_upper_bound : Q)
    (x : list Q) : list (dist * nat) :=
  let all := map (fun jp => (distance x (snd jp), fst jp)) (Py.enumerate (data tree)) in
  let within := filter (fun dj => Qltb (fst dj) distance_upper_bound) all in
  let hits := firstn k (Py.sorted (fun a b => Qltb (fst a) (fst b)) within) in
  map (fun dj => (Finite (fst dj), snd dj)) hits
    ++ repeat (Inf, length (data tree)) (k - length hits).

(** [tree.query(x, k=k, distance_upper_bound=r)] for [k > 1], which is
    what [_process] asks for with [k = 2 * max_neighbors]: two arrays of
    shape [(len(x), k)]. *)
Definition KDTree_query (tree : KDTree) (x : list (list Q)) (k : Z)
    (distance_upper_bound : Q) : result (list (list dist) * list (list nat)) :=
  if (k <? 1)%Z then Err ValueError
  else
    rows <- mapM (fun p => if length p =? m tree
                           then Ok (query_point tree (Z.to_nat k) distance_upper_bound p)
                           else Err ValueError) x ;;
    Ok (map (map fst) rows, map (map snd) rows).

(** *** [_compute_features] *)

Definition _compute_features (time : Z) (nodes : list Node) (images : list Image)
    (feature_funcs : list (Node -> list Frame -> list Q)) : result (list (list (list Q))) :=
  let frames := map (fun image => image time) images in
  mapM (fun func => Np.stack (map (fun node => func node frames) nodes)) feature_funcs.

(** *** [_process], lines 92 to 103: the aligned and scaled positions *)

(** [pos[..., -min_n_dim:] * scale]; on the rank-one empty array the slice
    is empty and only the broadcast can fail. *)
Definition times_scale (min_n_dim : nat) (pos : list (list Q)) (scale : list Q)
    : result (list (list Q)) :=
  match pos with
  | [] => _ <- Np.broadcast Qmult [] scale ;; Ok []
  | _ => mapM (fun p => Np.broadcast Qmult (Py.slice_last min_n_dim p) scale) pos
  end.

Record Positions : Type := mkPositions {
  current_pos : list (list Q);
  next_pos : list (list Q);
  n_dim : nat;
  next_shift : list (list Q)
}.

Definition positions (current_nodes next_nodes : list Node) (next_shift : list (list Q))
    (scale : option (list Q)) : result Positions :=
  current_pos <- Np.asarray (map centroid current_nodes) ;;
  next_pos <- Np.asarray (map centroid next_nodes) ;;
  n_dim <- Np.shape1 next_pos ;;
  let next_shift := map (Py.slice_last n_dim) next_shift in
  next_pos <- mapM (fun ps => Np.inplace Qplus (fst ps) (snd ps))
                   (combine next_pos next_shift) ;;
  match scale with
  | None => Ok (mkPositions current_pos next_pos n_dim next_shift)
  | Some scale =>
      let min_n_dim := Nat.min n_dim (length scale) in
      let scale := Py.slice_last min_n_dim scale in
      current_pos <- times_scale min_n_dim current_pos scale ;;
      next_pos <- times_scale min_n_dim next_pos scale ;;
      Ok (mkPositions current_pos next_pos n_dim next_shift)
  end.

(** *** [_process], lines 116 to 138: the colour filter *)

Definition floor_std (s : Q) : Q := if Qle_bool s (1 # 1000000) then 1 else s.

(** Lines 134 to 136.  [next_features], [next_features_std] and
    [neighbors] have one row per next node. *)
Definition z_score_mask (current_features next_features next_features_std : list (list Q))
    (neighbors : list (list nat)) (z_score_threshold : Q) : result (list (list bool)) :=
  gathered <- mapM (mapM (Np.take current_features)) neighbors ;;
  difference <- mapM (fun fg => mapM (Np.broadcast Qminus (fst fg)) (snd fg))
                     (combine next_features gathered) ;;
  difference <- mapM (fun ds => mapM (fun d => Np.inplace Qdiv d (snd ds)) (fst ds))
                     (combine difference next_features_std) ;;
  maxima <- mapM (mapM (fun d => Np.max (map Qabs d))) difference ;;
  Ok (map (map (fun x => Qle_bool x z_score_threshold)) maxima).

Definition color_filter (time : Z) (config : LinkingConfig) (images : list Image)
    (current_nodes next_nodes : list Node) (neighbors : list (list nat))
    : result (list (list bool)) :=
  if 0 <? length images then
    features <- _compute_features time current_nodes images [intensity_mean] ;;
    match features with
    | [current_features] =>
        width <- Np.shape1 current_features ;;
        let current_features := current_features ++ [repeat 0 width] in
        features <- _compute_features (time + 1) next_nodes images
                                      [intensity_mean; intensity_std] ;;
        match features with
        | [next_features; next_features_std] =>
            let next_features_std := map (map floor_std) next_features_std in
            z_score_mask current_features next_features next_features_std
                         neighbors (z_score_threshold config)
        | _ => Err ValueError
        end
    | _ => Err ValueError
    end
  else Ok (map (map (fun _ => true)) neighbors).

(** *** [_process], lines 140 to 144: the boxes of the next nodes *)

Definition with_bbox (node : Node) (b : list Z) : Node :=
  mkNode (id node) (centroid node) b.

Definition translate_bbox (n_dim : nat) (node : Node) (shift : list Z) : result Node :=
  let b := bbox node in
  low <- Np.inplace Z.add (firstn n_dim b) shift ;;
  let b := low ++ skipn n_dim b in
  high <- Np.inplace Z.add (Py.slice_last n_dim b) shift ;;
  let b := firstn (length b - length high) b ++ high in
  Ok (with_bbox node b).

(** *** [_process], lines 149 to 165: scoring and ranking *)

(** The loop over [zip(valid_neighbors, neigh_distances)].  The weight is
    a rational, so an entry needs a finite distance; [valid] selects no
    other entry (lemma [select_valid_finite] below). *)
Fixpoint score (current_nodes : list Node) (distance_w : Q) (node : Node)
    (pairs : list (nat * dist)) : result (list candidate) :=
  match pairs with
  | [] => Ok []
  | (neigh_idx, neigh_dist) :: pairs' =>
      neigh <- Np.take current_nodes neigh_idx ;;
      rest <- score current_nodes distance_w node pairs' ;;
      match neigh_dist with
      | Finite d => Ok ((IoU node neigh - distance_w * d, - d, id neigh, id node) :: rest)
      | Inf => Ok rest
      end
  end.

(** Lines 150 to 161: the scored candidates of one next node. *)
Definition scored_candidates (config : LinkingConfig) (current_nodes : list Node)
    (node : Node) (distances_i : list dist) (neighbors_i : list nat)
    (filtered_i : list bool) : result (list candidate) :=
  valid <- Np.broadcast andb (map (fun d => negb (isinf d)) distances_i) filtered_i ;;
  valid_neighbors <- Np.select neighbors_i valid ;;
  neigh_distances <- Np.select distances_i valid ;;
  score current_nodes (distance_weight config) node
        (combine valid_neighbors neigh_distances).

(** Line 163: [sorted(neighborhood, reverse=True)[: config.max_neighbors]]. *)
Definition neighborhood (config : LinkingConfig) (current_nodes : list Node) (node : Node)
    (distances_i : list dist) (neighbors_i : list nat) (filtered_i : list bool)
    : result (list candidate) :=
  scored <- scored_candidates config current_nodes node distances_i neighbors_i filtered_i ;;
  Ok (Py.slice_to (max_neighbors config) (Py.sorted_reverse tuple_lt scored)).

Fixpoint link_loop (config : LinkingConfig) (current_nodes : list Node)
    (next_nodes : list Node) (distances : list (list dist))
    (neighbors : list (list nat)) (filtered_by_color : list (list bool))
    : result (list candidate) :=
  match next_nodes with
  | [] => Ok []
  | node :: next_nodes' =>
      match distances, neighbors, filtered_by_color with
      | d :: distances', n :: neighbors', f :: filtered' =>
          hood <- neighborhood config current_nodes node d n f ;;
          rest <- link_loop config current_nodes next_nodes' distances' neighbors' filtered' ;;
          Ok (hood ++ rest)
      | _, _, _ => Err IndexError
      end
  end.

Definition frame_row (c : candidate) : LinkDB :=
  let '(w, _, source, target) := c in
  mkLinkDB w (inject_Z source) (inject_Z target).

(** Lines 167 and 168: [np.asarray(links)[:, [0, 2, 3]]]; an empty list of
    links is an array of rank one, which has no column to index. *)
Definition to_frame (links : list candidate) : result (list LinkDB) :=
  match links with
  | [] => Err IndexError
  | _ => Ok (map frame_row links)
  end.

(** *** [_process] *)

Definition nodes_at (db : Database) (time : Z) : list NodeDB :=
  filter (fun row => (t row =? time)%Z) (nodes db).

Definition shift_columns (row : NodeDB) : list Q :=
  [z_shift row; y_shift row; x_shift row].

(** Lines 78 to 90: the two node lists and the shift rows. *)
Definition current_nodes (db : Database) (time : Z) : list Node :=
  map pickle (nodes_at db time).

Definition next_nodes (db : Database) (time : Z) : list Node :=
  map pickle (nodes_at db (time + 1)).

Definition shift_rows (db : Database) (time : Z) : list (list Q) :=
  map shift_columns (nodes_at db (time + 1)).

(** Lines 140 to 144 over all next nodes. *)
Definition translate_all (n_dim : nat) (next_nodes : list Node)
    (next_shift : list (list Q)) : result (list Node) :=
  let int_next_shift := map (map Np.round) next_shift in
  mapM (fun ns => translate_bbox n_dim (fst ns) (snd ns))
       (combine next_nodes int_next_shift).

(** Lines 105 to 165: from the positions to the list of links. *)
Definition link_candidates (time : Z) (config : LinkingConfig) (images : list Image)
    (current_nodes next_nodes : list Node) (pos : Positions) : result (list candidate) :=
  current_kdtree <- KDTree_init (current_pos pos) ;;
  dn <- KDTree_query current_kdtree (next_pos pos)
                     (2 * max_neighbors config) (max_distance config) ;;
  let distances := fst dn in
  let neighbors := snd dn in
  filtered_by_color <- color_filter time config images current_nodes next_nodes neighbors ;;
  next_nodes <- translate_all (n_dim pos) next_nodes (next_shift pos) ;;
  link_loop config current_nodes next_nodes distances neighbors filtered_by_color.

(** Everything of [_process] before the write: the data frame of links. *)
Definition process_links (time : Z) (config : LinkingConfig) (db : Database)
    (images : list Image) (scale : option (list Q)) : result (list LinkDB) :=
  pos <- positions (current_nodes db time) (next_nodes db time) (shift_rows db time) scale ;;
  links <- link_candidates time config images
                           (current_nodes db time) (next_nodes db time) pos ;;
  to_frame links.

(** The write appends the frame to the link table. *)
Definition _process (time : Z) (config : LinkingConfig) (db : Database)
    (images : list Image) (scale : option (list Q)) : result Database :=
  df <- process_links time config db images scale ;;
  Ok (mkDatabase (nodes db) (links db ++ df)).

End Linking.

(** ** A concrete instance

    Nodes whose methods read the bounding box only, and a rounded-down
    square root that is exact on squares of rationals; the instance the
    concrete runs below evaluate. *)

Module Instance.

Definition interval_overlap (lo1 hi1 lo2 hi2 : Z) : Z :=
  Z.max 0 (Z.min hi1 hi2 - Z.max lo1 lo2).

Definition corners (n : Node) : list Z * list Z :=
  let d := Nat.div2 (length (bbox n)) in
  (firstn d (bbox n), skipn d (bbox n)).

Definition volume (n : Node) : Z :=
  let '(lo, hi) := corners n in
  fold_right Z.mul 1%Z (Np.map2 (fun l h => (h - l)%Z) lo hi).

Definition intersection (a b : Node) : Z :=
  let '(lo1, hi1) := corners a in
  let '(lo2, hi2) := corners b in
  fold_right Z.mul 1%Z
    (Np.map2 (fun x y => interval_overlap (fst x) (snd x) (fst y) (snd y))
             (combine lo1 hi1) (combine lo2 hi2)).

(** Modelled from the spec: [Node.IoU] is not part of the file; the spec
    describes it as the intersection over union of two bounding boxes. *)
Definition IoU (a b : Node) : Q :=
  let inter := intersection a b in
  inject_Z inter / inject_Z (volume a + volume b - inter).

(** The frames carry one intensity per node id and channel. *)
Definition Frame : Type := Z -> Q.

Definition intensity_mean (n : Node) (frames : list Frame) : list Q :=
  map (fun f => f (id n)) frames.

Definition intensity_std (n : Node) (frames : list Frame) : list Q :=
  map (fun _ => 0) frames.

Definition sqrt (q : Q) : Q :=
  Z.sqrt (Qnum q * Zpos (Qden q)) # Qden q.

Definition process := _process IoU intensity_mean intensity_std sqrt.
Definition frame := process_links IoU intensity_mean intensity_std sqrt.

(** Two current nodes [A] and [B] and one next node [C]: [A] is at
    distance 5 of [C], and [B] far away. *)
Definition A : Node := mkNode 1 [5; 5] [0; 0; 10; 10]%Z.
Definition B : Node := mkNode 2 [25; 25] [20; 20; 30; 30]%Z.
Definition C : Node := mkNode 7 [8; 9] [3; 4; 13; 14]%Z.

Definition store : Database :=
  mkDatabase [mkNodeDB 0 A 0 0 0; mkNodeDB 0 B 0 0 0; mkNodeDB 1 C 0 0 0] [].

Definition config : LinkingConfig := mkLinkingConfig 1 6 (1 # 10) 2.

(** The run of time 0 links [A] to [C] and leaves [B] out. *)
Definition link_AC : LinkDB := mkLinkDB (-370 # 1580) 1 7.
Definition linked : Database := mkDatabase (nodes store) [link_AC].

(** The intermediate values of that run. *)
Definition pos0 : Positions := mkPositions [[5; 5]; [25; 25]] [[8; 9]] 2 [[0; 0]].
Definition tree0 : KDTree := mkKDTree [[5; 5]; [25; 25]] 2.
Definition dn0 : list (list dist) * list (list nat) :=
  ([[Finite 5; Inf]], [[0; 2]]%nat).
Definition mask0 : list (list bool) := [[true; true]].


(** Degenerate stores: no current node, no next node, no node in reach. *)
Definition no_current : Database := mkDatabase [mkNodeDB 1 C 0 0 0] [].
Definition no_next : Database := mkDatabase [mkNodeDB 0 A 0 0 0] [].
Definition out_of_reach : Database :=
  mkDatabase [mkNodeDB 0 B 0 0 0; mkNodeDB 1 C 0 0 0] [].

(** The same run with the colour filter on. *)
Definition config_color : LinkingConfig := mkLinkingConfig 1 6 (1 # 10) 6.
Definition mask_color : list (list bool) := [[true; false]].

(** Two current nodes that tie on score and distance for [C]. *)
Definition A3 : Node := mkNode 3 [5; 5] [0; 0; 10; 10]%Z.
Definition config_two : LinkingConfig := mkLinkingConfig 2 6 (1 # 10) 2.
Definition tie_low : candidate := (-370 # 1580, - (5), 1%Z, 7%Z).
Definition tie_high : candidate := (-370 # 1580, - (5), 3%Z, 7%Z).

(** Images for the colour filter: one channel, the intensity of a node
    being its id. *)
Definition by_id : Image Frame := fun _ i => inject_Z i.

(** A store whose next node is shifted by (3/2, 5/2), rounded to (2, 2). *)
Definition store_shifted : Database :=
  mkDatabase [mkNodeDB 0 A 0 0 0; mkNodeDB 0 B 0 0 0; mkNodeDB 1 C 0 (3 # 2) (5 # 2)] [].
Definition config_shifted : LinkingConfig := mkLinkingConfig 1 10 (1 # 10) 6.
Definition pos_shifted : Positions :=
  mkPositions [[5; 5]; [25; 25]] [[19 # 2; 23 # 2]] 2 [[3 # 2; 5 # 2]].
Definition C_moved : Node := mkNode 7 [8; 9] [5; 6; 15; 16]%Z.

(** An overlap that is wrong on the stored box of [C], and a mean that is
    wrong on its translated box. *)
Definition IoU_moved_only (a b : Node) : Q :=
  if (nth 0 (bbox a) 0 =? 3)%Z then 0 else IoU a b.
Definition mean_stored_only (n : Node) (frames : list Frame) : list Q :=
  if (nth 0 (bbox n) 0 =? 5)%Z then [] else intensity_mean n frames.

End Instance.

(** ** Further concrete runs *)

Module Scenario.

(** Three time points: [A] and [B] at time 0, [C] at time 1, [E] at time 2. *)
Definition E : Node := mkNode 9 [8; 13] [3; 8; 13; 18]%Z.

Definition store3 : Database :=
  mkDatabase [mkNodeDB 0 Instance.A 0 0 0; mkNodeDB 0 Instance.B 0 0 0;
              mkNodeDB 1 Instance.C 0 0 0; mkNodeDB 2 E 0 0 0] [].

Definition link_CE : LinkDB := mkLinkDB (40 # 1400) 7 9.

(** Images that agree with [Instance.by_id] at the times 0 and 1 only. *)
Definition by_id_early : Image Instance.Frame :=
  fun time i => if (time <=? 1)%Z then inject_Z i else 99.

(** A node of another time for the store of [Instance]. *)
Definition late : NodeDB := mkNodeDB 5 E 0 0 0.

(** An overlap that is one half for every pair, and the run of time 0 on
    the store of [Instance] with it. *)
Definition half : Node -> Node -> Q := fun _ _ => 1 # 2.
Definition link_half : LinkDB := mkLinkDB (0 # 20) 1 7.
Definition linked_half : Database := mkDatabase (nodes Instance.store) [link_half].

(** Two current nodes at one place, of which only [A3] is near [C] in
    colour for the threshold 5. *)
Definition store_colors : Database :=
  mkDatabase [mkNodeDB 0 Instance.A 0 0 0; mkNodeDB 0 Instance.A3 0 0 0;
              mkNodeDB 1 Instance.C 0 0 0] [].
Definition config_colors : LinkingConfig := mkLinkingConfig 2 6 (1 # 10) 5.
Definition link_A3C : LinkDB := mkLinkDB (-370 # 1580) 3 7.
Definition linked_colors : Database := mkDatabase (nodes store_colors) [link_A3C].

(** Images in which every node has the intensity 3. *)
Definition flat : Image Instance.Frame := fun _ _ => 3.

(** The same store without images and with two neighbours kept. *)
Definition linked_two : Database :=
  mkDatabase (nodes store_colors) [link_A3C; Instance.link_AC].

End Scenario.

(** ** The properties the statements below speak of *)

Definition score_of (c : candidate) : Q := fst (fst (fst c)).
Definition neg_distance_of (c : candidate) : Q := snd (fst (fst c)).
Definition source_of (c : candidate) : Z := snd (fst c).
Definition target_of (c : candidate) : Z := snd c.

(** [a] may stand before [b] in a list that is descending by the key
    (score, negative distance, current-node id). *)
Definition ranks_before (a b : candidate) : Prop :=
  score_of b < score_of a \/
  (score_of a == score_of b /\
   (neg_distance_of b < neg_distance_of a \/
    (neg_distance_of a == neg_distance_of b /\ (source_of b <= source_of a)%Z))).

(** The same on the whole tuple, next-node id included. *)
Definition tuple_ge (a b : candidate) : Prop :=
  score_of b < score_of a \/
  (score_of a == score_of b /\
   (neg_distance_of b < neg_distance_of a \/
    (neg_distance_of a == neg_distance_of b /\
     ((source_of b < source_of a)%Z \/
      (source_of a = source_of b /\ (target_of b <= target_of a)%Z))))).

(** The normalised deviation per channel, as the spec words it:
    [|next_feature - current_feature| / next_feature_std], the deviation
    entries at or below [1e-6] replaced by [1]. *)
Definition deviations (next_feature current_feature next_std : list Q) : list Q :=
  Np.map2 (fun z s => z / floor_std s)
          (Np.map2 (fun x y => Qabs (x - y)) next_feature current_feature)
          next_std.

(** [z] is the maximum of [l], up to the equality of rationals. *)
Definition maximum_of (l : list Q) (z : Q) : Prop :=
  (exists y, In y l /\ y == z) /\ (forall y, In y l -> y <= z).

Definition passes_color (z_score_threshold : Q)
    (next_feature current_feature next_std : list Q) : Prop :=
  exists z, maximum_of (deviations next_feature current_feature next_std) z
            /\ z <= z_score_threshold.

(** The links that a run of [_process] from [db] to [db'] appended. *)
Definition appended (db db' : Database) : list LinkDB :=
  skipn (length (links db)) (links db').

(** Entry [(i, s)] of an array of rank two. *)
Definition entry {A : Type} (a : list (list A)) (i s : nat) : option A :=
  match nth_error a i with
  | Some row => nth_error row s
  | None => None
  end.

(** ** The [result] monad and [mapM] *)

Unset Implicit Arguments.

Lemma bind_Ok {A B : Type} (c : result A) (k : A -> result B) (b : B) :
  bind c k = Ok b -> exists a, c = Ok a /\ k a = Ok b.
Proof.
  destruct c as [a|e]; simpl; intros H; [exists a; auto | discriminate].
Qed.

Ltac inv_bind H :=
  let a := fresh "v" in
  let Ha := fresh "E" in
  apply bind_Ok in H; destruct H as (a & Ha & H).

Lemma mapM_Forall2 {A B : Type} (f : A -> result B) (l : list A) (l' : list B) :
  mapM f l = Ok l' -> Forall2 (fun x y => f x = Ok y) l l'.
Proof.
  revert l'; induction l as [|x xs IH]; simpl; intros l' H.
  - injection H as <-. constructor.
  - inv_bind H. inv_bind H. injection H as <-. constructor; auto.
Qed.

Lemma mapM_length {A B : Type} (f : A -> result B) (l : list A) (l' : list B) :
  mapM f l = Ok l' -> length l' = length l.
Proof.
  intros H. apply mapM_Forall2 in H. symmetry. eapply Forall2_length; eauto.
Qed.

Lemma Forall2_nth_left {A B : Type} (R : A -> B -> Prop) (l : list A) (l' : list B) :
  Forall2 R l l' ->
  forall i x, nth_error l i = Some x -> exists y, nth_error l' i = Some y /\ R x y.
Proof.
  induction 1 as [|x y l l' Hxy _ IH]; intros [|i] a Hi; simpl in *; try discriminate.
  - injection Hi as <-. eauto.
  - eauto.
Qed.

Lemma Forall2_nth_right {A B : Type} (R : A -> B -> Prop) (l : list A) (l' : list B) :
  Forall2 R l l' ->
  forall i y, nth_error l' i = Some y -> exists x, nth_error l i = Some x /\ R x y.
Proof.
  induction 1 as [|x y l l' Hxy _ IH]; intros [|i] a Hi; simpl in *; try discriminate.
  - injection Hi as <-. eauto.
  - eauto.
Qed.

Lemma nth_error_combine {A B : Type} (l : list A) (l' : list B) i x y :
  nth_error (combine l l') i = Some (x, y) <->
  nth_error l i = Some x /\ nth_error l' i = Some y.
Proof.
  revert l' i; induction l as [|a l IH]; intros [|b l'] [|i]; simpl;
    try (split; [discriminate | intros [? ?]; discriminate]).
  - split; [intros H; injection H as <- <-; auto | intros [H1 H2]; congruence].
  - apply IH.
Qed.

(** ** [sorted] *)

Section Sorting.

Context {A : Type} (lt : A -> A -> bool).

Lemma insert_perm (x : A) (l : list A) : Permutation (Py.insert lt x l) (x :: l).
Proof.
  induction l as [|y l IH]; simpl; [reflexivity|].
  destruct (lt y x); [|reflexivity].
  rewrite IH. apply perm_swap.
Qed.

Lemma sorted_perm (l : list A) : Permutation (Py.sorted lt l) l.
Proof.
  induction l as [|x l IH]; simpl; [reflexivity|].
  unfold Py.sorted in *; simpl. rewrite insert_perm. constructor; exact IH.
Qed.

Lemma sorted_In (l : list A) (x : A) : In x (Py.sorted lt l) <-> In x l.
Proof.
  split; apply Permutation_in; [|symmetry]; apply sorted_perm.
Qed.

Hypothesis lt_asym : forall a b, lt a b = true -> lt b a = false.
Hypothesis le_trans : forall a b c, lt b a = false -> lt c b = false -> lt c a = false.

Lemma insert_sorted (x : A) (l : list A) :
  StronglySorted (fun a b => lt b a = false) l ->
  StronglySorted (fun a b => lt b a = false) (Py.insert lt x l).
Proof.
  induction 1 as [|y l Hs IH Hy]; simpl.
  - repeat constructor.
  - destruct (lt y x) eqn:E.
    + constructor; [exact IH|].
      rewrite Forall_forall. intros z Hz.
      apply (Permutation_in _ (insert_perm x l)) in Hz. destruct Hz as [<-|Hz].
      * apply lt_asym, E.
      * rewrite Forall_forall in Hy. auto.
    + constructor; [constructor; assumption|].
      constructor; [exact E|].
      rewrite Forall_forall in *. intros z Hz.
      eapply le_trans; [exact E | apply Hy, Hz].
Qed.

Lemma sorted_sorted (l : list A) :
  StronglySorted (fun a b => lt b a = false) (Py.sorted lt l).
Proof.
  induction l as [|x l IH]; simpl; [constructor|].
  apply insert_sorted, IH.
Qed.

End Sorting.

(** ** The order of the candidate tuples *)

Lemma Qltb_true (a b : Q) : Qltb a b = true <-> a < b.
Proof.
  unfold Qltb. rewrite negb_true_iff, <- not_true_iff_false, Qle_bool_iff.
  split; [apply Qnot_le_lt | apply Qlt_not_le].
Qed.

Lemma Qltb_false (a b : Q) : Qltb a b = false <-> b <= a.
Proof.
  unfold Qltb. rewrite negb_false_iff. apply Qle_bool_iff.
Qed.

Lemma Qeq_bool_false (a b : Q) : Qeq_bool a b = false <-> ~ a == b.
Proof.
  rewrite <- not_true_iff_false, Qeq_bool_iff. tauto.
Qed.

Lemma tuple_lt_false (a b : candidate) : tuple_lt a b = false <-> tuple_ge a b.
Proof.
  destruct a as [[[a0 a1] a2] a3], b as [[[b0 b1] b2] b3].
  unfold tuple_ge, tuple_lt, score_of, neg_distance_of, source_of, target_of; simpl.
  destruct (Qeq_bool a0 b0) eqn:E0; simpl.
  - apply Qeq_bool_iff in E0.
    destruct (Qeq_bool a1 b1) eqn:E1; simpl.
    + apply Qeq_bool_iff in E1.
      destruct (Z.eqb_spec a2 b2) as [E2|E2]; simpl.
      * rewrite Z.ltb_ge. split.
        -- intros H. right. split; [exact E0|]. right. split; [exact E1|].
           right. split; assumption.
        -- intros [H|[_ [H|[_ [H|[_ H]]]]]]; try lra; try lia.
      * rewrite Z.ltb_ge. split.
        -- intros H. right. split; [exact E0|]. right. split; [exact E1|].
           left. lia.
        -- intros [H|[_ [H|[_ [H|[H _]]]]]]; try lra; try lia.
    + apply Qeq_bool_false in E1. rewrite Qltb_false. split.
      * intros H. right. split; [exact E0|]. left.
        apply Qle_lt_or_eq in H. destruct H as [H|H]; [exact H|].
        exfalso. apply E1. symmetry; exact H.
      * intros [H|[_ [H|[H _]]]]; lra.
  - apply Qeq_bool_false in E0. rewrite Qltb_false. split.
    + intros H. left.
      apply Qle_lt_or_eq in H. destruct H as [H|H]; [exact H|].
      exfalso. apply E0. symmetry; exact H.
    + intros [H|[H _]]; lra.
Qed.

Lemma tuple_ge_trans (a b c : candidate) : tuple_ge a b -> tuple_ge b c -> tuple_ge a c.
Proof.
  unfold tuple_ge.
  intros [H|[H0 [H|[H1 [H|[H2 H3]]]]]] [K|[K0 [K|[K1 [K|[K2 K3]]]]]];
    try (left; lra);
    try (right; split; [lra|]; left; lra);
    try (right; split; [lra|]; right; split; [lra|]; left; lia);
    right; split; [lra|]; right; split; [lra|]; right; split; [congruence | lia].
Qed.

Lemma tuple_ge_total (a b : candidate) : tuple_ge a b \/ tuple_ge b a.
Proof.
  unfold tuple_ge.
  destruct (Q_dec (score_of a) (score_of b)) as [[H|H]|H]; [right; left; lra | left; left; lra |].
  destruct (Q_dec (neg_distance_of a) (neg_distance_of b)) as [[K|K]|K].
  - right. right. split; [lra|]. left; lra.
  - left. right. split; [lra|]. left; lra.
  - destruct (Z.lt_trichotomy (source_of a) (source_of b)) as [L|[L|L]].
    + right. right. split; [lra|]. right. split; [lra|]. left; lia.
    + destruct (Z.le_ge_cases (target_of a) (target_of b)).
      * right. right. split; [lra|]. right. split; [lra|]. right. split; [congruence|lia].
      * left. right. split; [lra|]. right. split; [lra|]. right. split; [congruence|lia].
    + left. right. split; [lra|]. right. split; [lra|]. left; lia.
Qed.

Lemma tuple_lt_asym (a b : candidate) : tuple_lt a b = true -> tuple_lt b a = false.
Proof.
  intros H. apply tuple_lt_false.
  destruct (tuple_ge_total b a) as [G|G]; [exact G|].
  apply tuple_lt_false in G. congruence.
Qed.

Lemma sorted_reverse_sorted (l : list candidate) :
  StronglySorted tuple_ge (Py.sorted_reverse tuple_lt l).
Proof.
  unfold Py.sorted_reverse.
  assert (S : StronglySorted (fun a b => tuple_lt a b = false)
                             (Py.sorted (fun a b => tuple_lt b a) l)).
  { apply (sorted_sorted (fun a b => tuple_lt b a)).
    - intros a b. apply tuple_lt_asym.
    - intros a b c H1 H2. apply tuple_lt_false.
      apply tuple_lt_false in H1, H2. eapply tuple_ge_trans; eauto. }
  revert S. generalize (Py.sorted (fun a b => tuple_lt b a) l). intros s S.
  induction S as [|x s S IH Hx]; constructor; auto.
  rewrite Forall_forall in *. intros y Hy. apply tuple_lt_false. auto.
Qed.

Lemma tuple_ge_ranks (a b : candidate) :
  target_of a = target_of b -> tuple_ge a b -> ranks_before a b.
Proof.
  unfold tuple_ge, ranks_before.
  intros T [H|[H0 [H|[H1 [H|[H2 H3]]]]]]; auto.
  - right. split; [exact H0|]. right. split; [exact H1|]. lia.
  - right. split; [exact H0|]. right. split; [exact H1|]. lia.
Qed.

(** ** numpy on rows *)

Lemma map2_length {A B C : Type} (f : A -> B -> C) (a : list A) (b : list B) :
  length a = length b -> length (Np.map2 f a b) = length a.
Proof.
  revert b; induction a as [|x a IH]; intros [|y b]; simpl; intros H;
    try discriminate; auto.
Qed.

Lemma map2_nth {A B C : Type} (f : A -> B -> C) (a : list A) (b : list B) s :
  nth_error (Np.map2 f a b) s =
  match nth_error a s, nth_error b s with
  | Some x, Some y => Some (f x y)
  | _, _ => None
  end.
Proof.
  revert b s; induction a as [|x a IH]; intros [|y b] [|s]; simpl; auto.
  destruct (nth_error a s); reflexivity.
Qed.

Lemma map2_comm {A C : Type} (f : A -> A -> C) (a b : list A) :
  (forall x y, f x y = f y x) -> Np.map2 f a b = Np.map2 f b a.
Proof.
  intros Hf. revert b; induction a as [|x a IH]; intros [|y b]; simpl; auto.
  rewrite Hf, IH. reflexivity.
Qed.

Lemma broadcast_same_length {A : Type} (f : A -> A -> A) (a b r : list A) :
  length a = length b -> Np.broadcast f a b = Ok r -> r = Np.map2 f a b.
Proof.
  intros L. unfold Np.broadcast. rewrite L, Nat.eqb_refl. congruence.
Qed.

Lemma inplace_same_length {A B : Type} (f : A -> B -> A) (a : list A) (b : list B) :
  length b = length a -> Np.inplace f a b = Ok (Np.map2 f a b).
Proof.
  intros L. unfold Np.inplace. rewrite L, Nat.eqb_refl. reflexivity.
Qed.

Lemma take_Ok {A : Type} (a : list A) idx x :
  Np.take a idx = Ok x <-> nth_error a idx = Some x.
Proof.
  unfold Np.take. destruct (nth_error a idx); split; congruence.
Qed.

Lemma asarray_Ok {A : Type} (rows a : list (list A)) :
  Np.asarray rows = Ok a ->
  a = rows /\ forall r r', In r rows -> In r' rows -> length r = length r'.
Proof.
  unfold Np.asarray. destruct rows as [|r0 rs]; intros H.
  - injection H as <-. split; [reflexivity | intros ? ? []].
  - destruct (forallb _ rs) eqn:F; [|discriminate]. injection H as <-.
    split; [reflexivity|]. rewrite forallb_forall in F.
    assert (L : forall r, In r (r0 :: rs) -> length r = length r0).
    { intros r [<-|Hr]; [reflexivity | apply Nat.eqb_eq, F, Hr]. }
    intros r r' Hr Hr'. rewrite (L r Hr), (L r' Hr'). reflexivity.
Qed.

Lemma stack_Ok {A : Type} (rows a : list (list A)) :
  Np.stack rows = Ok a ->
  a = rows /\ rows <> [] /\ forall r r', In r rows -> In r' rows -> length r = length r'.
Proof.
  unfold Np.stack. destruct rows as [|r0 rs]; intros H; [discriminate|].
  destruct (forallb _ rs) eqn:F; [|discriminate]. injection H as <-.
  split; [reflexivity|]. split; [discriminate|]. rewrite forallb_forall in F.
  assert (L : forall r, In r (r0 :: rs) -> length r = length r0).
  { intros r [<-|Hr]; [reflexivity | apply Nat.eqb_eq, F, Hr]. }
  intros r r' Hr Hr'. rewrite (L r Hr), (L r' Hr'). reflexivity.
Qed.

(** The slots a pair of masked selections keeps. *)
Lemma select_pair_In {A B : Type} (a : list A) (b : list B) (mask : list bool)
    (ra : list A) (rb : list B) x y :
  Np.select a mask = Ok ra -> Np.select b mask = Ok rb ->
  In (x, y) (combine ra rb) ->
  exists s, nth_error a s = Some x /\ nth_error b s = Some y
            /\ nth_error mask s = Some true.
Proof.
  unfold Np.select.
  destruct (Nat.eqb_spec (length mask) (length a)) as [La|]; [|discriminate].
  destruct (Nat.eqb_spec (length mask) (length b)) as [Lb|]; [|discriminate].
  intros Ha Hb; injection Ha as <-; injection Hb as <-.
  revert a b La Lb; induction mask as [|v mask IH]; intros [|a0 a] [|b0 b] La Lb;
    simpl in *; try discriminate; try tauto.
  injection La as La; injection Lb as Lb. destruct v; simpl.
  - intros [H|H].
    + injection H as <- <-. exists 0%nat. auto.
    + destruct (IH a b La Lb H) as (s & ? & ? & ?). exists (S s). auto.
  - intros H. destruct (IH a b La Lb H) as (s & ? & ? & ?). exists (S s). auto.
Qed.

Lemma firstn_In {A : Type} (n : nat) (l : list A) (x : A) :
  In x (firstn n l) -> In x l.
Proof.
  intros H. rewrite <- (firstn_skipn n l). apply in_or_app. left; exact H.
Qed.

(** ** The k-d tree *)

Lemma enumerate_from_In {A : Type} (l : list A) (i j : nat) (x : A) :
  In (j, x) (Py.enumerate_from i l) -> (i <= j)%nat /\ nth_error l (j - i) = Some x.
Proof.
  revert i; induction l as [|y l IH]; simpl; intros i; [intros []|].
  intros [H|H].
  - injection H as <- <-. rewrite Nat.sub_diag. auto.
  - apply IH in H. destruct H as [H1 H2]. split; [lia|].
    replace (j - i)%nat with (S (j - S i)) by lia. exact H2.
Qed.

Section KDTreeFacts.

Variable np_sqrt : Q -> Q.

Lemma query_point_length (tree : KDTree) k r p :
  length (query_point np_sqrt tree k r p) = k.
Proof.
  unfold query_point. rewrite length_app, length_map, repeat_length.
  set (hits := firstn k _).
  assert (length hits <= k)%nat by (unfold hits; rewrite length_firstn; lia).
  lia.
Qed.

Lemma query_point_In (tree : KDTree) k r p d j :
  In (d, j) (query_point np_sqrt tree k r p) ->
  (d = Inf /\ j = length (data tree)) \/
  (exists q pc, d = Finite q /\ nth_error (data tree) j = Some pc
                /\ q = distance np_sqrt p pc /\ q < r).
Proof.
  unfold query_point. rewrite in_app_iff. intros [H|H].
  - right. apply in_map_iff in H. destruct H as ([q j'] & E & H).
    simpl in E. injection E as <- <-.
    apply firstn_In in H. apply sorted_In in H.
    apply filter_In in H. destruct H as [H R]. simpl in R.
    apply in_map_iff in H. destruct H as ([j'' pc] & E & H).
    simpl in E. injection E as <- <-.
    apply enumerate_from_In in H. destruct H as [_ H]. rewrite Nat.sub_0_r in H.
    exists (distance np_sqrt p pc), pc. repeat split; auto.
    apply Qltb_true, R.
  - left. apply repeat_spec in H. injection H as -> ->. auto.
Qed.

Lemma KDTree_query_Ok (tree : KDTree) x k r dn :
  KDTree_query np_sqrt tree x k r = Ok dn ->
  (1 <= k)%Z /\
  forall i drow nrow,
    nth_error (fst dn) i = Some drow -> nth_error (snd dn) i = Some nrow ->
    exists p, nth_error x i = Some p
              /\ drow = map fst (query_point np_sqrt tree (Z.to_nat k) r p)
              /\ nrow = map snd (query_point np_sqrt tree (Z.to_nat k) r p).
Proof.
  unfold KDTree_query. destruct (Z.ltb_spec k 1) as [|K]; [discriminate|].
  intros H. inv_bind H. injection H as <-. split; [exact K|]. simpl.
  intros i drow nrow Hd Hn.
  apply mapM_Forall2 in E.
  rewrite nth_error_map in Hd, Hn.
  destruct (nth_error v i) as [row|] eqn:Hrow; [|discriminate].
  simpl in Hd, Hn. injection Hd as <-; injection Hn as <-.
  destruct (Forall2_nth_right _ _ _ E _ _ Hrow) as (p & Hp & Hq).
  exists p. split; [exact Hp|].
  destruct (length p =? m tree); [|discriminate]. injection Hq as <-. auto.
Qed.

(** A slot of the query result: either the sentinel pair, or a data point
    below the radius. *)
Lemma KDTree_query_slot (tree : KDTree) x k r dn i drow nrow s d j :
  KDTree_query np_sqrt tree x k r = Ok dn ->
  nth_error (fst dn) i = Some drow -> nth_error (snd dn) i = Some nrow ->
  nth_error drow s = Some d -> nth_error nrow s = Some j ->
  exists p, nth_error x i = Some p /\
    ((d = Inf /\ j = length (data tree)) \/
     (exists q pc, d = Finite q /\ nth_error (data tree) j = Some pc
                   /\ q = distance np_sqrt p pc /\ q < r)).
Proof.
  intros H Hd Hn Hs Hj.
  destruct (KDTree_query_Ok _ _ _ _ _ H) as [_ R].
  destruct (R i drow nrow Hd Hn) as (p & Hp & -> & ->).
  exists p. split; [exact Hp|].
  rewrite nth_error_map in Hs, Hj.
  destruct (nth_error (query_point np_sqrt tree (Z.to_nat k) r p) s) as [[d' j']|] eqn:E;
    [|discriminate].
  simpl in Hs, Hj. injection Hs as <-; injection Hj as <-.
  apply nth_error_In in E. apply query_point_In in E. exact E.
Qed.

Lemma KDTree_query_row_length (tree : KDTree) x k r dn i drow nrow :
  KDTree_query np_sqrt tree x k r = Ok dn ->
  nth_error (fst dn) i = Some drow -> nth_error (snd dn) i = Some nrow ->
  length drow = Z.to_nat k /\ length nrow = Z.to_nat k.
Proof.
  intros H Hd Hn.
  destruct (KDTree_query_Ok _ _ _ _ _ H) as [_ R].
  destruct (R i drow nrow Hd Hn) as (p & Hp & -> & ->).
  rewrite !length_map, query_point_length. auto.
Qed.


End KDTreeFacts.

(** ** The colour filter *)

Lemma z_score_mask_entry (cf nf sd : list (list Q)) (neighbors : list (list nat))
    (thr : Q) (mask : list (list bool)) i frow :
  z_score_mask cf nf sd neighbors thr = Ok mask ->
  nth_error mask i = Some frow ->
  exists nrow f sdev,
    nth_error neighbors i = Some nrow /\ nth_error nf i = Some f
    /\ nth_error sd i = Some sdev /\ length frow = length nrow
    /\ forall s b, nth_error frow s = Some b ->
       exists j c diff diff' z,
         nth_error nrow s = Some j /\ nth_error cf j = Some c
         /\ Np.broadcast Qminus f c = Ok diff
         /\ Np.inplace Qdiv diff sdev = Ok diff'
         /\ Np.max (map Qabs diff') = Ok z
         /\ b = Qle_bool z thr.
Proof.
  unfold z_score_mask. intros H Hi.
  inv_bind H. rename v into gathered, E into Eg.
  inv_bind H. rename v into diff1, E into E1.
  inv_bind H. rename v into diff2, E into E2.
  inv_bind H. rename v into maxima, E into Em.
  injection H as <-.
  apply mapM_Forall2 in Eg, E1, E2, Em.
  rewrite nth_error_map in Hi.
  destruct (nth_error maxima i) as [mrow|] eqn:Hm; [|discriminate].
  simpl in Hi. injection Hi as <-.
  destruct (Forall2_nth_right _ _ _ Em _ _ Hm) as (d2row & Hd2 & Md2).
  destruct (Forall2_nth_right _ _ _ E2 _ _ Hd2) as ([d1row sdev] & Hc2 & Md1).
  apply nth_error_combine in Hc2. destruct Hc2 as [Hd1 Hsd]. simpl in Md1.
  destruct (Forall2_nth_right _ _ _ E1 _ _ Hd1) as ([f grow] & Hc1 & Mg).
  apply nth_error_combine in Hc1. destruct Hc1 as [Hf Hg]. simpl in Mg.
  destruct (Forall2_nth_right _ _ _ Eg _ _ Hg) as (nrow & Hn & Mn).
  exists nrow, f, sdev. repeat split; auto.
  - rewrite length_map.
    rewrite (mapM_length _ _ _ Md2), (mapM_length _ _ _ Md1),
            (mapM_length _ _ _ Mg), (mapM_length _ _ _ Mn). reflexivity.
  - intros s b Hs. rewrite nth_error_map in Hs.
    destruct (nth_error mrow s) as [z|] eqn:Hz; [|discriminate].
    simpl in Hs. injection Hs as <-.
    apply mapM_Forall2 in Md2, Md1, Mg, Mn.
    destruct (Forall2_nth_right _ _ _ Md2 _ _ Hz) as (diff' & Hd' & Mz).
    destruct (Forall2_nth_right _ _ _ Md1 _ _ Hd') as (diff & Hdf & Mdiv).
    destruct (Forall2_nth_right _ _ _ Mg _ _ Hdf) as (c & Hc & Msub).
    destruct (Forall2_nth_right _ _ _ Mn _ _ Hc) as (j & Hj & Mj).
    apply take_Ok in Mj.
    exists j, c, diff, diff', z. repeat split; auto.
Qed.

Section Facts.

Variable Frame : Type.
Variable IoU : Node -> Node -> Q.
Variable intensity_mean : Node -> list Frame -> list Q.
Variable intensity_std : Node -> list Frame -> list Q.
Variable np_sqrt : Q -> Q.

Lemma color_filter_shape time config (images : list (Image Frame)) cur next neighbors mask :
  color_filter intensity_mean intensity_std time config images cur next neighbors = Ok mask ->
  forall i frow, nth_error mask i = Some frow ->
  exists nrow, nth_error neighbors i = Some nrow /\ length frow = length nrow.
Proof.
  unfold color_filter. destruct (0 <? length images).
  - intros H. inv_bind H. destruct v as [|cf [|? ?]]; try discriminate.
    inv_bind H. inv_bind H.
    destruct v0 as [|nf [|sd [|? ?]]]; try discriminate.
    intros i frow Hi.
    destruct (z_score_mask_entry _ _ _ _ _ _ _ _ H Hi) as (nrow & _ & _ & Hn & _ & _ & L & _).
    eauto.
  - intros H; injection H as <-. intros i frow Hi.
    rewrite nth_error_map in Hi.
    destruct (nth_error neighbors i) as [nrow|]; [|discriminate].
    simpl in Hi. injection Hi as <-. exists nrow. rewrite length_map. auto.
Qed.

(** ** Scoring and ranking *)

Lemma score_In cur dw node pairs cands c :
  score IoU cur dw node pairs = Ok cands -> In c cands ->
  exists j d neigh,
    In (j, Finite d) pairs /\ nth_error cur j = Some neigh
    /\ c = (IoU node neigh - dw * d, - d, id neigh, id node).
Proof.
  revert cands; induction pairs as [|[j d] pairs IH]; simpl; intros cands H Hc.
  - injection H as <-. destruct Hc.
  - inv_bind H. inv_bind H. apply take_Ok in E.
    destruct d as [d|].
    + injection H as <-. destruct Hc as [<-|Hc].
      * exists j, d, v. auto.
      * destruct (IH _ E0 Hc) as (j' & d' & n' & ? & ? & ?). exists j', d', n'. auto.
    + injection H as <-.
      destruct (IH _ E0 Hc) as (j' & d' & n' & ? & ? & ?). exists j', d', n'. auto.
Qed.

(** Every scored candidate stems from a slot whose distance is finite and
    whose colour entry is [True]. *)
Lemma scored_candidates_In config cur node drow nrow frow cands c :
  length nrow = length drow -> length frow = length drow ->
  scored_candidates IoU config cur node drow nrow frow = Ok cands -> In c cands ->
  exists s j d neigh,
    nth_error nrow s = Some j /\ nth_error drow s = Some (Finite d)
    /\ nth_error frow s = Some true /\ nth_error cur j = Some neigh
    /\ c = (IoU node neigh - distance_weight config * d, - d, id neigh, id node).
Proof.
  intros Ln Lf H Hc. unfold scored_candidates in H.
  inv_bind H. rename v into valid, E into Ev.
  inv_bind H. rename v into vn, E into En.
  inv_bind H. rename v into vd, E into Ed.
  destruct (score_In _ _ _ _ _ _ H Hc) as (j & d & neigh & Hp & Hj & ->).
  destruct (select_pair_In _ _ _ _ _ _ _ En Ed Hp) as (s & Hs1 & Hs2 & Hs3).
  apply broadcast_same_length in Ev; [|rewrite length_map; auto].
  subst valid. rewrite map2_nth, nth_error_map, Hs2 in Hs3. simpl in Hs3.
  destruct (nth_error frow s) as [b|] eqn:Hb; [|discriminate].
  destruct b; [|discriminate].
  exists s, j, d, neigh. repeat split; auto.
Qed.

(** The entries that [valid] selects have a finite distance, so [score]
    drops none of them. *)
Lemma select_valid_finite (drow : list dist) (frow valid : list bool) vd d :
  length frow = length drow ->
  Np.broadcast andb (map (fun d => negb (isinf d)) drow) frow = Ok valid ->
  Np.select drow valid = Ok vd -> In d vd -> isinf d = false.
Proof.
  intros L Ev Ed Hd.
  apply broadcast_same_length in Ev; [|rewrite length_map; auto]. subst valid.
  unfold Np.select in Ed. destruct (_ =? _); [|discriminate]. injection Ed as <-.
  apply in_map_iff in Hd. destruct Hd as ([d' b] & E & Hd). simpl in E; subst d'.
  apply filter_In in Hd. destruct Hd as [Hd Hb]. simpl in Hb; subst b.
  apply In_nth_error in Hd. destruct Hd as [s Hs].
  apply nth_error_combine in Hs. destruct Hs as [Hs1 Hs2].
  rewrite map2_nth, nth_error_map, Hs1 in Hs2. simpl in Hs2.
  destruct (nth_error frow s); [|discriminate].
  injection Hs2 as Hs2. apply andb_prop in Hs2. destruct Hs2 as [Hs2 _].
  apply negb_true_iff in Hs2. exact Hs2.
Qed.

Lemma select_length {A B : Type} (a : list A) (b : list B) (mask : list bool) ra rb :
  Np.select a mask = Ok ra -> Np.select b mask = Ok rb -> length ra = length rb.
Proof.
  unfold Np.select.
  destruct (Nat.eqb_spec (length mask) (length a)) as [La|]; [|discriminate].
  destruct (Nat.eqb_spec (length mask) (length b)) as [Lb|]; [|discriminate].
  intros Ha Hb; injection Ha as <-; injection Hb as <-. rewrite !length_map.
  revert a b La Lb; induction mask as [|v mask IH]; intros [|a0 a] [|b0 b] La Lb;
    simpl in *; try discriminate; [reflexivity|].
  destruct v; simpl; rewrite (IH a b) by congruence; reflexivity.
Qed.

Lemma score_length cur dw node pairs cands :
  (forall j d, In (j, d) pairs -> isinf d = false) ->
  score IoU cur dw node pairs = Ok cands -> length cands = length pairs.
Proof.
  revert cands; induction pairs as [|[j d] pairs IH]; simpl; intros cands Hfin H.
  - injection H as <-. reflexivity.
  - inv_bind H. inv_bind H.
    destruct d as [d|]; [|specialize (Hfin j Inf (or_introl eq_refl)); discriminate].
    injection H as <-. simpl. f_equal. apply IH; [|exact E0].
    intros j' d' Hin. apply (Hfin j' d'). right; exact Hin.
Qed.

(** [score] scores every entry that [valid] selects. *)
Lemma scored_candidates_keeps_all config cur node drow nrow frow valid vd cands :
  length nrow = length drow -> length frow = length drow ->
  Np.broadcast andb (map (fun d => negb (isinf d)) drow) frow = Ok valid ->
  Np.select drow valid = Ok vd ->
  scored_candidates IoU config cur node drow nrow frow = Ok cands ->
  length cands = length vd.
Proof.
  intros Ln Lf Ev Ed H. unfold scored_candidates in H. rewrite Ev in H. simpl in H.
  inv_bind H. rename v into vn. rewrite Ed in H. simpl in H.
  apply score_length in H.
  - rewrite H, length_combine, (select_length _ _ _ _ _ E Ed). apply Nat.min_id.
  - intros j d Hin. apply in_combine_r in Hin.
    eapply select_valid_finite; eauto.
Qed.

Lemma slice_to_In {A : Type} (m : Z) (l : list A) x : In x (Py.slice_to m l) -> In x l.
Proof.
  unfold Py.slice_to. destruct (0 <=? m)%Z; apply firstn_In.
Qed.

Lemma slice_to_length {A : Type} (m : Z) (l : list A) :
  (0 <= m)%Z -> (Z.of_nat (length (Py.slice_to m l)) <= m)%Z.
Proof.
  intros Hm. unfold Py.slice_to. destruct (Z.leb_spec 0 m); [|lia].
  pose proof (firstn_le_length (Z.to_nat m) l). lia.
Qed.

Lemma StronglySorted_firstn {A : Type} (R : A -> A -> Prop) n (l : list A) :
  StronglySorted R l -> StronglySorted R (firstn n l).
Proof.
  intros S. revert n; induction S as [|x l S IH Hx]; intros [|n]; simpl; constructor; auto.
  rewrite Forall_forall in *. intros y Hy. apply Hx. eapply firstn_In; eauto.
Qed.

Lemma slice_to_sorted {A : Type} (R : A -> A -> Prop) (m : Z) (l : list A) :
  StronglySorted R l -> StronglySorted R (Py.slice_to m l).
Proof.
  unfold Py.slice_to. destruct (0 <=? m)%Z; apply StronglySorted_firstn.
Qed.

(** In a sorted list, what is kept by a prefix is kept together with
    everything that must stand before it. *)
Lemma firstn_keeps_better {A : Type} (R : A -> A -> Prop) n (l : list A) a b :
  StronglySorted R l -> In a l -> In b (firstn n l) -> ~ R b a -> In a (firstn n l).
Proof.
  intros S. revert n; induction S as [|x l S IH Hx]; intros [|n] Ha Hb Hn;
    simpl in *; try tauto.
  destruct Ha as [Ha|Ha]; [auto|].
  destruct Hb as [Hb|Hb].
  - subst x. rewrite Forall_forall in Hx. exfalso. apply Hn, Hx, Ha.
  - right. apply IH; auto.
Qed.

Lemma neighborhood_Ok config cur node drow nrow frow hood :
  neighborhood IoU config cur node drow nrow frow = Ok hood ->
  exists scored,
    scored_candidates IoU config cur node drow nrow frow = Ok scored
    /\ hood = Py.slice_to (max_neighbors config) (Py.sorted_reverse tuple_lt scored).
Proof.
  unfold neighborhood. intros H. inv_bind H. injection H as <-. eauto.
Qed.

Lemma neighborhood_In config cur node drow nrow frow hood c :
  length nrow = length drow -> length frow = length drow ->
  neighborhood IoU config cur node drow nrow frow = Ok hood -> In c hood ->
  exists s j d neigh,
    nth_error nrow s = Some j /\ nth_error drow s = Some (Finite d)
    /\ nth_error frow s = Some true /\ nth_error cur j = Some neigh
    /\ c = (IoU node neigh - distance_weight config * d, - d, id neigh, id node).
Proof.
  intros Ln Lf H Hc. apply neighborhood_Ok in H. destruct H as (scored & Hs & ->).
  apply slice_to_In in Hc. apply sorted_In in Hc.
  eapply scored_candidates_In; eauto.
Qed.

Lemma neighborhood_sorted config cur node drow nrow frow hood :
  neighborhood IoU config cur node drow nrow frow = Ok hood ->
  StronglySorted tuple_ge hood.
Proof.
  intros H. apply neighborhood_Ok in H. destruct H as (scored & Hs & ->).
  apply slice_to_sorted, sorted_reverse_sorted.
Qed.

Lemma link_loop_blocks config cur next D N F links :
  link_loop IoU config cur next D N F = Ok links ->
  exists hoods,
    links = concat hoods /\
    Forall2 (fun node hood =>
               exists i drow nrow frow,
                 nth_error D i = Some drow /\ nth_error N i = Some nrow
                 /\ nth_error F i = Some frow /\ nth_error next i = Some node
                 /\ neighborhood IoU config cur node drow nrow frow = Ok hood)
            next hoods.
Proof.
  revert D N F links; induction next as [|node next IH]; simpl; intros D N F links H.
  - injection H as <-. exists []. split; [reflexivity | constructor].
  - destruct D as [|d D]; [discriminate|].
    destruct N as [|n N]; [discriminate|].
    destruct F as [|f F]; [discriminate|].
    inv_bind H. inv_bind H. injection H as <-.
    destruct (IH _ _ _ _ E0) as (hoods & -> & HF).
    exists (v :: hoods). split; [reflexivity|]. constructor.
    + exists 0%nat, d, n, f. simpl. auto.
    + eapply Forall2_impl; [|exact HF].
      intros a b (i & drow & nrow & frow & ? & ? & ? & ? & ?).
      exists (S i), drow, nrow, frow. simpl. auto.
Qed.

(** ** The stages of [_process] *)

Lemma translate_bbox_Ok n node shift node' :
  translate_bbox n node shift = Ok node' ->
  id node' = id node /\ centroid node' = centroid node.
Proof.
  unfold translate_bbox. intros H. inv_bind H. inv_bind H.
  injection H as <-. auto.
Qed.

Lemma translate_all_nth n next shifts moved i node' :
  translate_all n next shifts = Ok moved -> nth_error moved i = Some node' ->
  exists node shift,
    nth_error next i = Some node /\ nth_error shifts i = Some shift
    /\ translate_bbox n node (map Np.round shift) = Ok node'.
Proof.
  unfold translate_all. intros H Hi. apply mapM_Forall2 in H.
  destruct (Forall2_nth_right _ _ _ H _ _ Hi) as ([node ishift] & Hc & Ht).
  apply nth_error_combine in Hc. destruct Hc as [Hn Hs].
  rewrite nth_error_map in Hs.
  destruct (nth_error shifts i) as [shift|]; [|discriminate].
  injection Hs as <-. exists node, shift. auto.
Qed.

Lemma process_Ok time config db (images : list (Image Frame)) scale db' :
  _process IoU intensity_mean intensity_std np_sqrt time config db images scale = Ok db' ->
  process_links IoU intensity_mean intensity_std np_sqrt time config db images scale
    = Ok (appended db db')
  /\ links db' = links db ++ appended db db' /\ nodes db' = nodes db.
Proof.
  unfold _process. intros H. inv_bind H. injection H as <-.
  unfold appended; simpl.
  rewrite skipn_app, skipn_all, Nat.sub_diag; simpl. auto.
Qed.

Lemma process_links_Ok time config db (images : list (Image Frame)) scale df :
  process_links IoU intensity_mean intensity_std np_sqrt time config db images scale = Ok df ->
  exists pos tree dn mask moved cands,
    positions (current_nodes db time) (next_nodes db time) (shift_rows db time) scale = Ok pos
    /\ KDTree_init (current_pos pos) = Ok tree
    /\ KDTree_query np_sqrt tree (next_pos pos) (2 * max_neighbors config)
                    (max_distance config) = Ok dn
    /\ color_filter intensity_mean intensity_std time config images
                    (current_nodes db time) (next_nodes db time) (snd dn) = Ok mask
    /\ translate_all (n_dim pos) (next_nodes db time) (next_shift pos) = Ok moved
    /\ link_loop IoU config (current_nodes db time) moved (fst dn) (snd dn) mask = Ok cands
    /\ to_frame cands = Ok df.
Proof.
  unfold process_links, link_candidates. intros H.
  inv_bind H. rename v into pos. inv_bind H. rename v into cands.
  inv_bind E0. rename v into tree. inv_bind E0. rename v into dn.
  inv_bind E0. rename v into mask. inv_bind E0. rename v into moved.
  exists pos, tree, dn, mask, moved, cands. repeat split; assumption.
Qed.

Lemma to_frame_Ok cands df :
  to_frame cands = Ok df -> cands <> [] /\ df = map frame_row cands.
Proof.
  destruct cands; simpl; intros H; [discriminate|].
  injection H as <-. split; [discriminate | reflexivity].
Qed.

Lemma KDTree_init_Ok pts tree :
  KDTree_init pts = Ok tree -> pts <> [] /\ data tree = pts.
Proof.
  destruct pts; simpl; intros H; [discriminate|].
  injection H as <-. split; [discriminate | reflexivity].
Qed.

(** Where a link of the frame comes from: a slot [(i, s)] of the query
    result with a finite distance and a [True] colour entry. *)
Lemma link_origin config cur moved tree x dn mask cands l time (images : list (Image Frame)) next :
  KDTree_query np_sqrt tree x (2 * max_neighbors config) (max_distance config) = Ok dn ->
  color_filter intensity_mean intensity_std time config images cur next (snd dn) = Ok mask ->
  link_loop IoU config cur moved (fst dn) (snd dn) mask = Ok cands ->
  In l (map frame_row cands) ->
  exists i s j d node' neigh,
    entry (fst dn) i s = Some (Finite d) /\ entry (snd dn) i s = Some j
    /\ entry mask i s = Some true
    /\ nth_error moved i = Some node' /\ nth_error cur j = Some neigh
    /\ l = mkLinkDB (IoU node' neigh - distance_weight config * d)
                    (inject_Z (id neigh)) (inject_Z (id node')).
Proof.
  intros Hq Hf Hl Hin.
  apply in_map_iff in Hin. destruct Hin as (c & <- & Hc).
  destruct (link_loop_blocks _ _ _ _ _ _ _ Hl) as (hoods & -> & HF).
  apply in_concat in Hc. destruct Hc as (hood & Hh & Hc).
  apply In_nth_error in Hh. destruct Hh as [i0 Hh].
  destruct (Forall2_nth_right _ _ _ HF _ _ Hh)
    as (node' & _ & i & drow & nrow & frow & Hd & Hn & Hm & Hnode & Hnb).
  destruct (KDTree_query_row_length _ _ _ _ _ _ _ _ _ Hq Hd Hn) as [Ld Ln].
  destruct (color_filter_shape _ _ _ _ _ _ _ Hf _ _ Hm) as (nrow' & Hn' & Lf).
  rewrite Hn in Hn'. injection Hn' as <-.
  assert (L1 : length nrow = length drow) by congruence.
  assert (L2 : length frow = length drow) by congruence.
  destruct (neighborhood_In _ _ _ _ _ _ _ _ L1 L2 Hnb Hc)
    as (s & j & d & neigh & Hs1 & Hs2 & Hs3 & Hs4 & ->).
  exists i, s, j, d, node', neigh. unfold entry. rewrite Hd, Hn, Hm.
  repeat split; auto.
Qed.

End Facts.

(** ** The aligned positions *)

Lemma times_scale_length min_n_dim pos scale r :
  times_scale min_n_dim pos scale = Ok r -> length r = length pos.
Proof.
  unfold times_scale. destruct pos as [|p pos].
  - intros H. inv_bind H. injection H as <-. reflexivity.
  - apply mapM_length.
Qed.

Lemma positions_Ok cur next shifts scale pos :
  positions cur next shifts scale = Ok pos ->
  next <> [] /\ length (current_pos pos) = length cur
  /\ next_shift pos = map (Py.slice_last (n_dim pos)) shifts.
Proof.
  unfold positions. intros H.
  inv_bind H. rename v into cp. apply asarray_Ok in E. destruct E as [-> _].
  inv_bind H. rename v into np. apply asarray_Ok in E. destruct E as [-> _].
  inv_bind H. rename v into n.
  assert (Hn : next <> []) by (destruct next; [discriminate E | discriminate]).
  inv_bind H. destruct scale as [scale|].
  - inv_bind H. inv_bind H. injection H as <-. simpl.
    apply times_scale_length in E1. rewrite length_map in E1. auto.
  - injection H as <-. simpl. rewrite length_map. auto.
Qed.


Section Provenance.

Variable Frame : Type.
Variable IoU : Node -> Node -> Q.
Variable intensity_mean : Node -> list Frame -> list Q.
Variable intensity_std : Node -> list Frame -> list Q.
Variable np_sqrt : Q -> Q.

Lemma entry_Some {A : Type} (a : list (list A)) i s (x : A) :
  entry a i s = Some x <-> exists row, nth_error a i = Some row /\ nth_error row s = Some x.
Proof.
  unfold entry. destruct (nth_error a i) as [row|]; split.
  - eauto.
  - intros (row' & E & H). injection E as <-. exact H.
  - discriminate.
  - intros (row' & E & _). discriminate.
Qed.

(** The provenance of a link written by [_process]: the pair of nodes, the
    slot of the query result, and the two positions it was computed from. *)
Lemma link_provenance time config db (images : list (Image Frame)) scale df pos tree dn mask moved l :
  process_links IoU intensity_mean intensity_std np_sqrt time config db images scale = Ok df ->
  positions (current_nodes db time) (next_nodes db time) (shift_rows db time) scale = Ok pos ->
  KDTree_init (current_pos pos) = Ok tree ->
  KDTree_query np_sqrt tree (next_pos pos) (2 * max_neighbors config)
               (max_distance config) = Ok dn ->
  color_filter intensity_mean intensity_std time config images
               (current_nodes db time) (next_nodes db time) (snd dn) = Ok mask ->
  translate_all (n_dim pos) (next_nodes db time) (next_shift pos) = Ok moved ->
  In l df ->
  exists i s j source target target' p_next p_cur,
    entry (fst dn) i s = Some (Finite (distance np_sqrt p_next p_cur))
    /\ entry (snd dn) i s = Some j /\ entry mask i s = Some true
    /\ nth_error (current_nodes db time) j = Some source
    /\ nth_error (next_nodes db time) i = Some target
    /\ nth_error moved i = Some target'
    /\ nth_error (current_pos pos) j = Some p_cur
    /\ nth_error (next_pos pos) i = Some p_next
    /\ distance np_sqrt p_next p_cur < max_distance config
    /\ l = mkLinkDB (IoU target' source
                     - distance_weight config * distance np_sqrt p_next p_cur)
                    (inject_Z (id source)) (inject_Z (id target)).
Proof.
  intros H Hpos Htree Hq Hmask Hmoved Hl.
  destruct (process_links_Ok _ _ _ _ _ _ _ _ _ _ _ H)
    as (pos0 & tree0 & dn0 & mask0 & moved0 & cands & P1 & P2 & P3 & P4 & P5 & P6 & P7).
  rewrite Hpos in P1; injection P1 as <-.
  rewrite Htree in P2; injection P2 as <-.
  rewrite Hq in P3; injection P3 as <-.
  rewrite Hmask in P4; injection P4 as <-.
  rewrite Hmoved in P5; injection P5 as <-.
  apply to_frame_Ok in P7. destruct P7 as [_ ->].
  destruct (link_origin _ _ _ _ _ _ _ _ _ _ _ _ _ _ _ _ _ Hq Hmask P6 Hl)
    as (i & s & j & d & target' & source & Hd & Hj & Hm & Ht' & Hsrc & ->).
  apply entry_Some in Hd, Hj. destruct Hd as (drow & Hd & Hds), Hj as (nrow & Hn & Hns).
  destruct (KDTree_query_slot _ _ _ _ _ _ _ _ _ _ _ _ Hq Hd Hn Hds Hns)
    as (p_next & Hp & [[Hinf _]|(q & p_cur & Hfin & Hpc & -> & Hlt)]); [discriminate|].
  injection Hfin as ->.
  apply KDTree_init_Ok in Htree. destruct Htree as [_ Hdata]. rewrite Hdata in Hpc.
  destruct (translate_all_nth _ _ _ _ _ _ Hmoved Ht') as (target & shift & Ht & _ & Hb).
  apply translate_bbox_Ok in Hb. destruct Hb as [Hid _].
  exists i, s, j, source, target, target', p_next, p_cur.
  rewrite Hid. repeat split; auto; apply entry_Some; eauto.
Qed.

End Provenance.

(** ** The concrete instance *)

Lemma Instance_IoU_sym (a b : Node) : Instance.IoU a b = Instance.IoU b a.
Proof.
  unfold Instance.IoU.
  assert (E : Instance.intersection a b = Instance.intersection b a).
  { unfold Instance.intersection.
    destruct (Instance.corners a) as [lo1 hi1], (Instance.corners b) as [lo2 hi2].
    f_equal. apply map2_comm. intros x y. unfold Instance.interval_overlap.
    rewrite Z.min_comm, (Z.max_comm (fst x)). reflexivity. }
  rewrite E, (Z.add_comm (Instance.volume a)). reflexivity.
Qed.

(** ** The links of one run *)

Section Claims.

Variable Frame : Type.
Variable IoU : Node -> Node -> Q.
Variable intensity_mean : Node -> list Frame -> list Q.
Variable intensity_std : Node -> list Frame -> list Q.
Variable np_sqrt : Q -> Q.

(** C1.  Every link that [_process] writes carries as weight the IoU of
    its source node and of its target node (the target with its box moved
    by lines 140 to 144) minus [distance_weight] times the distance between
    the aligned and scaled positions of the two nodes; its source id is the
    id of the current-time node and its target id the id of the next-time
    node.  [IoU] is any symmetric overlap: the code calls the method of the
    target with the source as its argument. *)
Theorem link_weight_and_endpoints time config db (images : list (Image Frame)) scale
    db' pos moved l :
  (forall a b, IoU a b = IoU b a) ->
  _process IoU intensity_mean intensity_std np_sqrt time config db images scale = Ok db' ->
  positions (current_nodes db time) (next_nodes db time) (shift_rows db time) scale = Ok pos ->
  translate_all (n_dim pos) (next_nodes db time) (next_shift pos) = Ok moved ->
  In l (appended db db') ->
  exists i j source target target' p_next p_cur,
    nth_error (current_nodes db time) j = Some source
    /\ nth_error (next_nodes db time) i = Some target
    /\ nth_error moved i = Some target'
    /\ nth_error (current_pos pos) j = Some p_cur
    /\ nth_error (next_pos pos) i = Some p_next
    /\ weight l = IoU source target'
                  - distance_weight config * distance np_sqrt p_next p_cur
    /\ source_id l = inject_Z (id source)
    /\ target_id l = inject_Z (id target).
Proof.
  intros Hsym H Hpos Hmoved Hl.
  apply process_Ok in H. destruct H as (H & _ & _).
  destruct (process_links_Ok _ _ _ _ _ _ _ _ _ _ _ H)
    as (pos0 & tree & dn & mask & moved0 & cands & P1 & P2 & P3 & P4 & P5 & _ & _).
  rewrite Hpos in P1; injection P1 as <-.
  rewrite Hmoved in P5; injection P5 as <-.
  destruct (link_provenance _ _ _ _ _ _ _ _ _ _ _ _ _ _ _ _ _ H Hpos P2 P3 P4 Hmoved Hl)
    as (i & s & j & source & target & target' & p_next & p_cur
        & _ & _ & _ & Hs & Ht & Ht' & Hpc & Hpn & _ & ->).
  exists i, j, source, target, target', p_next, p_cur. simpl.
  rewrite (Hsym source target'). repeat split; auto.
Qed.


End Claims.

Lemma link_weight_and_endpoints_witness :
  exists i j source target target' p_next p_cur,
    nth_error (current_nodes Instance.store 0) j = Some source
    /\ nth_error (next_nodes Instance.store 0) i = Some target
    /\ nth_error [Instance.C] i = Some target'
    /\ nth_error (current_pos Instance.pos0) j = Some p_cur
    /\ nth_error (next_pos Instance.pos0) i = Some p_next
    /\ weight Instance.link_AC
       = Instance.IoU source target'
         - distance_weight Instance.config * distance Instance.sqrt p_next p_cur
    /\ source_id Instance.link_AC = inject_Z (id source)
    /\ target_id Instance.link_AC = inject_Z (id target).
Proof.
  apply (link_weight_and_endpoints Instance.Frame Instance.IoU Instance.intensity_mean
           Instance.intensity_std Instance.sqrt 0 Instance.config Instance.store
           [] None Instance.linked Instance.pos0 [Instance.C] Instance.link_AC).
  - exact Instance_IoU_sym.
  - vm_compute; reflexivity.
  - vm_compute; reflexivity.
  - vm_compute; reflexivity.
  - simpl; auto.
Defined.


Section Sentinel.

Variable Frame : Type.
Variable IoU : Node -> Node -> Q.
Variable intensity_mean : Node -> list Frame -> list Q.
Variable intensity_std : Node -> list Frame -> list Q.
Variable np_sqrt : Q -> Q.


End Sentinel.


(** ** The blocks of the frame, one per next node *)

Lemma Forall2_compose {A B C : Type} (R : A -> B -> Prop) (S : B -> C -> Prop)
    (la : list A) (lb : list B) (lc : list C) :
  Forall2 R la lb -> Forall2 S lb lc ->
  Forall2 (fun a c => exists b, R a b /\ S b c) la lc.
Proof.
  intros H. revert lc; induction H as [|a b la lb Hab _ IH]; intros lc HS;
    inversion HS; subst; constructor; eauto.
Qed.

Lemma translate_all_Forall2 n next shifts moved :
  translate_all n next shifts = Ok moved -> length shifts = length next ->
  Forall2 (fun target target' => id target' = id target) next moved.
Proof.
  unfold translate_all. intros H L. apply mapM_Forall2 in H.
  assert (L' : length (map (map Np.round) shifts) = length next)
    by (rewrite length_map; exact L).
  revert H L'. generalize (map (map Np.round) shifts). clear L shifts.
  intros ishifts. revert ishifts moved.
  induction next as [|x next IH]; intros [|s ishifts] moved H L; simpl in *;
    try discriminate.
  - inversion H. constructor.
  - inversion H as [|? node' ? moved' Ht HF]; subst. simpl in Ht.
    apply translate_bbox_Ok in Ht. destruct Ht as [Ht _].
    constructor; [exact Ht|]. eapply IH; eauto.
Qed.


Lemma StronglySorted_after {A : Type} (R : A -> A -> Prop) (pre post : list A) (b a : A) :
  StronglySorted R (pre ++ b :: post) -> In a post -> R b a.
Proof.
  induction pre as [|x pre IH]; simpl; intros S Ha.
  - inversion S as [|? ? _ Hb]; subst. rewrite Forall_forall in Hb. auto.
  - inversion S; subst. auto.
Qed.

Lemma Qeq_bool_inject_Z (a b : Z) : Qeq_bool (inject_Z a) (inject_Z b) = (a =? b)%Z.
Proof.
  destruct (Z.eqb_spec a b) as [->|N].
  - apply Qeq_bool_iff. reflexivity.
  - apply Qeq_bool_false. intros E. apply N.
    unfold Qeq in E. simpl in E. lia.
Qed.

Lemma filter_frame_rows (x : Z) (cands : list candidate) :
  filter (fun l => Qeq_bool (target_id l) (inject_Z x)) (map frame_row cands)
  = map frame_row (filter (fun c => (target_of c =? x)%Z) cands).
Proof.
  induction cands as [|[[[w nd] src] tgt] cands IH]; simpl; [reflexivity|].
  unfold target_of at 1; simpl. rewrite Qeq_bool_inject_Z.
  destruct (tgt =? x)%Z; simpl; rewrite IH; reflexivity.
Qed.

Lemma filter_none {A : Type} (f : A -> bool) (l : list A) :
  (forall x, In x l -> f x = false) -> filter f l = [].
Proof.
  induction l as [|y l IH]; simpl; intros H; [reflexivity|].
  rewrite (H y) by auto. apply IH. auto.
Qed.

(** With distinct ids, the candidates of one target lie in one block. *)
Lemma count_in_blocks (n : nat) (targets : list Node) (hoods : list (list candidate)) (x : Z) :
  NoDup (map id targets) ->
  Forall2 (fun target hood =>
             Forall (fun c => target_of c = id target) hood /\ (length hood <= n)%nat)
          targets hoods ->
  (length (filter (fun c => (target_of c =? x)%Z) (concat hoods)) <= n)%nat.
Proof.
  intros ND HF. induction HF as [|target hood targets hoods [Ht Hn] HF IH]; simpl; [lia|].
  inversion ND as [|? ? Hnotin ND']; subst.
  rewrite filter_app, length_app.
  destruct (Z.eq_dec (id target) x) as [E|E].
  - assert (Z0 : filter (fun c => (target_of c =? x)%Z) (concat hoods) = []).
    { apply filter_none. intros c Hc. apply Z.eqb_neq. intros Ec.
      apply in_concat in Hc. destruct Hc as (h & Hh & Hc).
      apply In_nth_error in Hh. destruct Hh as [k Hk].
      destruct (Forall2_nth_right _ _ _ HF _ _ Hk) as (t' & Ht' & Hall & _).
      rewrite Forall_forall in Hall. apply Hall in Hc.
      apply Hnotin. rewrite E, <- Ec, Hc.
      apply in_map, (nth_error_In _ _ Ht'). }
    rewrite Z0. simpl. pose proof (filter_length_le (fun c => (target_of c =? x)%Z) hood). lia.
  - assert (Z0 : filter (fun c => (target_of c =? x)%Z) hood = []).
    { apply filter_none. intros c Hc. apply Z.eqb_neq.
      rewrite Forall_forall in Ht. rewrite (Ht c Hc). exact E. }
    rewrite Z0. simpl. apply IH, ND'.
Qed.

Section Blocks.

Variable Frame : Type.
Variable IoU : Node -> Node -> Q.
Variable intensity_mean : Node -> list Frame -> list Q.
Variable intensity_std : Node -> list Frame -> list Q.
Variable np_sqrt : Q -> Q.

Lemma scored_candidates_target config cur node drow nrow frow scored c :
  scored_candidates IoU config cur node drow nrow frow = Ok scored ->
  In c scored -> target_of c = id node.
Proof.
  unfold scored_candidates. intros H Hc. inv_bind H. inv_bind H. inv_bind H.
  destruct (score_In _ _ _ _ _ _ _ H Hc) as (j & d & neigh & _ & _ & ->).
  reflexivity.
Qed.

Lemma neighborhood_target config cur node drow nrow frow hood c :
  neighborhood IoU config cur node drow nrow frow = Ok hood ->
  In c hood -> target_of c = id node.
Proof.
  intros H Hc. apply neighborhood_Ok in H. destruct H as (scored & Hs & ->).
  apply slice_to_In, sorted_In in Hc.
  eapply scored_candidates_target; eauto.
Qed.

(** The frame of a run is the concatenation of one block per next node,
    in the order of the next nodes; each block is the result of line 163
    for that node. *)
Lemma process_links_blocks time config db (images : list (Image Frame)) scale df :
  process_links IoU intensity_mean intensity_std np_sqrt time config db images scale = Ok df ->
  (1 <= max_neighbors config)%Z /\
  exists hoods,
    df = map frame_row (concat hoods) /\
    Forall2 (fun target hood =>
               exists target' drow nrow frow,
                 id target' = id target
                 /\ neighborhood IoU config (current_nodes db time) target'
                                 drow nrow frow = Ok hood)
            (next_nodes db time) hoods.
Proof.
  intros H.
  destruct (process_links_Ok _ _ _ _ _ _ _ _ _ _ _ H)
    as (pos & tree & dn & mask & moved & cands & P1 & P2 & P3 & P4 & P5 & P6 & P7).
  split.
  { destruct (KDTree_query_Ok _ _ _ _ _ _ P3) as [K _]. lia. }
  apply to_frame_Ok in P7. destruct P7 as [_ ->].
  destruct (link_loop_blocks _ _ _ _ _ _ _ _ P6) as (hoods & -> & HF).
  exists hoods. split; [reflexivity|].
  assert (L : length (next_shift pos) = length (next_nodes db time)).
  { destruct (positions_Ok _ _ _ _ _ P1) as (_ & _ & ->).
    unfold shift_rows, next_nodes. rewrite !length_map. reflexivity. }
  pose proof (translate_all_Forall2 _ _ _ _ P5 L) as HT.
  eapply Forall2_impl; [|exact (Forall2_compose _ _ _ _ _ HT HF)].
  intros target hood (target' & Hid & i & drow & nrow & frow & _ & _ & _ & _ & Hnb).
  exists target', drow, nrow, frow. auto.
Qed.

(** C2.  For every next-time node, [_process] writes at most
    [max_neighbors] links whose target is that node; the ids identify the
    next nodes. *)
Theorem links_per_target_bounded time config db (images : list (Image Frame)) scale db' :
  _process IoU intensity_mean intensity_std np_sqrt time config db images scale = Ok db' ->
  NoDup (map id (next_nodes db time)) ->
  forall target, In target (next_nodes db time) ->
    (Z.of_nat (length (filter (fun l => Qeq_bool (target_id l) (inject_Z (id target)))
                              (appended db db')))
     <= max_neighbors config)%Z.
Proof.
  intros H ND target _.
  apply process_Ok in H. destruct H as (H & _ & _).
  destruct (process_links_blocks _ _ _ _ _ _ H) as (K & hoods & -> & HF).
  rewrite filter_frame_rows, length_map.
  assert (B : (length (filter (fun c => (target_of c =? id target)%Z) (concat hoods))
               <= Z.to_nat (max_neighbors config))%nat).
  { apply count_in_blocks with (targets := next_nodes db time); [exact ND|].
    eapply Forall2_impl; [|exact HF].
    intros tg hood (tg' & drow & nrow & frow & Hid & Hnb). split.
    - rewrite Forall_forall. intros c Hc. rewrite <- Hid.
      eapply neighborhood_target; eauto.
    - apply neighborhood_Ok in Hnb. destruct Hnb as (scored & _ & ->).
      pose proof (slice_to_length (max_neighbors config)
                    (Py.sorted_reverse tuple_lt scored)) as Hl. lia. }
  lia.
Qed.

End Blocks.

Lemma links_per_target_bounded_witness :
  (Z.of_nat (length (filter (fun l => Qeq_bool (target_id l) (inject_Z (id Instance.C)))
                            (appended Instance.store Instance.linked)))
   <= max_neighbors Instance.config)%Z.
Proof.
  apply (links_per_target_bounded Instance.Frame Instance.IoU Instance.intensity_mean
           Instance.intensity_std Instance.sqrt 0 Instance.config Instance.store
           [] None Instance.linked).
  - vm_compute; reflexivity.
  - simpl. repeat constructor; simpl; intuition discriminate.
  - simpl; auto.
Defined.

Section Ranking.

Variable Frame : Type.
Variable IoU : Node -> Node -> Q.
Variable intensity_mean : Node -> list Frame -> list Q.
Variable intensity_std : Node -> list Frame -> list Q.
Variable np_sqrt : Q -> Q.

(** [_process] reads the node table only. *)
Lemma process_links_nodes time config db db2 (images : list (Image Frame)) scale :
  nodes db2 = nodes db ->
  process_links IoU intensity_mean intensity_std np_sqrt time config db2 images scale
  = process_links IoU intensity_mean intensity_std np_sqrt time config db images scale.
Proof.
  intros E. unfold process_links, current_nodes, next_nodes, shift_rows, nodes_at.
  rewrite E. reflexivity.
Qed.


(** C10.  Of two candidates of one next node that tie on score and on
    distance, the one with the larger current-node id is ranked first: if
    the one with the smaller id is kept by the truncation to
    [max_neighbors], the other is kept as well, and stands before it. *)
Theorem larger_id_wins_ties config cur node drow nrow frow scored hood a b :
  scored_candidates IoU config cur node drow nrow frow = Ok scored ->
  neighborhood IoU config cur node drow nrow frow = Ok hood ->
  In a scored -> In b hood ->
  score_of a == score_of b -> neg_distance_of a == neg_distance_of b ->
  (source_of b < source_of a)%Z ->
  In a hood /\ forall pre post, hood = pre ++ b :: post -> In a pre.
Proof.
  intros Hs Hn Ha Hb Es Ed Hid.
  assert (Nge : ~ tuple_ge b a).
  { unfold tuple_ge. intros [G|[_ [G|[_ [G|[G _]]]]]]; try lra; lia. }
  pose proof (neighborhood_sorted _ _ _ _ _ _ _ _ Hn) as Sorted.
  apply neighborhood_Ok in Hn. destruct Hn as (scored' & Hs' & ->).
  rewrite Hs in Hs'; injection Hs' as <-.
  assert (Hin : In a (Py.slice_to (max_neighbors config)
                                  (Py.sorted_reverse tuple_lt scored))).
  { unfold Py.slice_to in *.
    destruct (0 <=? max_neighbors config)%Z;
      (eapply firstn_keeps_better;
       [apply sorted_reverse_sorted | apply sorted_In; exact Ha | exact Hb | exact Nge]). }
  split; [exact Hin|].
  intros pre post E. rewrite E in Hin, Sorted.
  apply in_app_or in Hin. destruct Hin as [Hin|[Hin|Hin]]; [exact Hin | | ].
  - subst b. lia.
  - exfalso. apply Nge. eapply StronglySorted_after; eauto.
Qed.

End Ranking.


Lemma larger_id_wins_ties_witness :
  In Instance.tie_high [Instance.tie_high; Instance.tie_low]
  /\ In Instance.tie_high [Instance.tie_high].
Proof.
  destruct (larger_id_wins_ties Instance.IoU Instance.config_two
              [Instance.A; Instance.A3] Instance.C [Finite 5; Finite 5]
              [0; 1]%nat [true; true]
              [Instance.tie_low; Instance.tie_high]
              [Instance.tie_high; Instance.tie_low]
              Instance.tie_high Instance.tie_low) as [Hkept Hfirst].
  - vm_compute; reflexivity.
  - vm_compute; reflexivity.
  - simpl; auto.
  - simpl; auto.
  - reflexivity.
  - reflexivity.
  - reflexivity.
  - split; [exact Hkept|].
    apply (Hfirst [Instance.tie_high] []). reflexivity.
Defined.

(** ** The z-score of the colour filter *)

Lemma floor_std_pos (s : Q) : 0 < floor_std s.
Proof.
  unfold floor_std. destruct (Qle_bool s (1 # 1000000)) eqn:E; [reflexivity|].
  apply not_true_iff_false in E. rewrite Qle_bool_iff in E.
  apply Qnot_le_lt in E. eapply Qlt_trans; [|exact E]. reflexivity.
Qed.

Lemma Qabs_div_pos (a b : Q) : 0 < b -> Qabs (a / b) == Qabs a / b.
Proof.
  intros Hb. unfold Qdiv. rewrite Qabs_Qmult.
  rewrite (Qabs_pos (/ b)); [reflexivity|].
  apply Qinv_le_0_compat, Qlt_le_weak, Hb.
Qed.

(** What lines 134 to 136 compute on rows of one length is, entry by
    entry, the normalised deviation of the spec. *)
Lemma z_scores_deviations (f c sd : list Q) :
  Forall2 Qeq (map Qabs (Np.map2 Qdiv (Np.map2 Qminus f c) (map floor_std sd)))
              (deviations f c sd).
Proof.
  unfold deviations. revert c sd; induction f as [|x f IH]; intros [|y c] [|s sd];
    cbn [map Np.map2]; constructor; auto.
  apply (Qabs_div_pos (x - y) (floor_std s)), floor_std_pos.
Qed.

Lemma fold_left_fmax_ge (xs : list Q) (x y : Q) :
  In y (x :: xs) -> y <= fold_left Np.fmax xs x.
Proof.
  revert x y; induction xs as [|x' xs IH]; simpl; intros x y H.
  - destruct H as [<-|[]]. apply Qle_refl.
  - assert (Hx : x <= Np.fmax x x' /\ x' <= Np.fmax x x').
    { unfold Np.fmax. destruct (Qle_bool x x') eqn:E.
      - apply Qle_bool_iff in E. split; [exact E | apply Qle_refl].
      - apply not_true_iff_false in E. rewrite Qle_bool_iff in E.
        split; [apply Qle_refl | apply Qlt_le_weak, Qnot_le_lt, E]. }
    destruct H as [<-|[<-|H]].
    + eapply Qle_trans; [apply Hx | apply IH; left; reflexivity].
    + eapply Qle_trans; [apply Hx | apply IH; left; reflexivity].
    + apply IH. right; exact H.
Qed.

Lemma fold_left_fmax_In (xs : list Q) (x : Q) : In (fold_left Np.fmax xs x) (x :: xs).
Proof.
  revert x; induction xs as [|x' xs IH]; simpl; intros x; [auto|].
  destruct (IH (Np.fmax x x')) as [H|H]; [|auto].
  rewrite <- H. unfold Np.fmax. destruct (Qle_bool x x'); auto.
Qed.

Lemma max_Ok (row : list Q) (z : Q) :
  Np.max row = Ok z -> In z row /\ forall y, In y row -> y <= z.
Proof.
  destruct row as [|x xs]; simpl; intros H; [discriminate|]. injection H as <-.
  split; [apply fold_left_fmax_In | intros y; apply fold_left_fmax_ge].
Qed.

Lemma Forall2_In_left {A B : Type} (R : A -> B -> Prop) (l : list A) (l' : list B) x :
  Forall2 R l l' -> In x l -> exists y, In y l' /\ R x y.
Proof.
  induction 1 as [|a b l l' Hab _ IH]; simpl; intros [].
  - subst. eauto.
  - destruct IH as (y & ? & ?); eauto.
Qed.

Lemma Forall2_In_right {A B : Type} (R : A -> B -> Prop) (l : list A) (l' : list B) y :
  Forall2 R l l' -> In y l' -> exists x, In x l /\ R x y.
Proof.
  induction 1 as [|a b l l' Hab _ IH]; simpl; intros [].
  - subst. eauto.
  - destruct IH as (x & ? & ?); eauto.
Qed.

(** The test of line 136 on the code's row is the test of the spec on the
    deviations. *)
Lemma max_le_passes (f c sd : list Q) (thr z : Q) :
  Np.max (map Qabs (Np.map2 Qdiv (Np.map2 Qminus f c) (map floor_std sd))) = Ok z ->
  (Qle_bool z thr = true <-> passes_color thr f c sd).
Proof.
  intros H. apply max_Ok in H. destruct H as [Hin Hmax].
  pose proof (z_scores_deviations f c sd) as HF.
  rewrite Qle_bool_iff. unfold passes_color, maximum_of. split.
  - intros Hz. exists z. split; [split|exact Hz].
    + destruct (Forall2_In_left _ _ _ _ HF Hin) as (y & Hy & E).
      exists y. split; [exact Hy | symmetry; exact E].
    + intros y Hy. destruct (Forall2_In_right _ _ _ _ HF Hy) as (x & Hx & E).
      rewrite <- E. apply Hmax, Hx.
  - intros (z' & [_ Hall] & Hz').
    destruct (Forall2_In_left _ _ _ _ HF Hin) as (y & Hy & E).
    rewrite E. eapply Qle_trans; [apply Hall, Hy | exact Hz'].
Qed.

Lemma z_score_mask_length (cf nf sd : list (list Q)) (neighbors : list (list nat))
    (thr : Q) (mask : list (list bool)) :
  z_score_mask cf nf sd neighbors thr = Ok mask ->
  length mask = Nat.min (Nat.min (length nf) (length neighbors)) (length sd).
Proof.
  unfold z_score_mask. intros H.
  inv_bind H. inv_bind H. inv_bind H. inv_bind H. injection H as <-.
  apply mapM_length in E, E0, E1, E2.
  rewrite length_combine in E0, E1.
  rewrite length_map. lia.
Qed.

Section ColorFilter.

Variable Frame : Type.
Variable intensity_mean : Node -> list Frame -> list Q.
Variable intensity_std : Node -> list Frame -> list Q.

Lemma compute_features_one time nodes (images : list (Image Frame)) func a :
  _compute_features time nodes images [func] = Ok [a] ->
  nodes <> [] /\ a = map (fun node => func node (map (fun image => image time) images)) nodes.
Proof.
  unfold _compute_features. simpl. intros H. inv_bind H. injection H as <-.
  apply stack_Ok in E. destruct E as (-> & N & _).
  split; [|reflexivity]. intros ->. apply N. reflexivity.
Qed.

Lemma compute_features_two time nodes (images : list (Image Frame)) f g a b :
  _compute_features time nodes images [f; g] = Ok [a; b] ->
  a = map (fun node => f node (map (fun image => image time) images)) nodes
  /\ b = map (fun node => g node (map (fun image => image time) images)) nodes.
Proof.
  unfold _compute_features. simpl. intros H. inv_bind H. inv_bind H.
  inv_bind E0. injection E0 as <-. injection H as <- <-.
  apply stack_Ok in E, E1. destruct E as (-> & _), E1 as (-> & _). auto.
Qed.


End ColorFilter.


(** ** Degenerate inputs *)

Section Degenerate.

Variable Frame : Type.
Variable IoU : Node -> Node -> Q.
Variable intensity_mean : Node -> list Frame -> list Q.
Variable intensity_std : Node -> list Frame -> list Q.
Variable np_sqrt : Q -> Q.

Lemma process_Ok_nondegenerate time config db (images : list (Image Frame)) scale db' :
  _process IoU intensity_mean intensity_std np_sqrt time config db images scale = Ok db' ->
  current_nodes db time <> [] /\ next_nodes db time <> []
  /\ appended db db' <> [] /\ links db' = links db ++ appended db db'
  /\ forall pos,
       positions (current_nodes db time) (next_nodes db time) (shift_rows db time) scale
       = Ok pos ->
       link_candidates IoU intensity_mean intensity_std np_sqrt time config images
                       (current_nodes db time) (next_nodes db time) pos <> Ok [].
Proof.
  intros H. apply process_Ok in H. destruct H as (H & Happ & _).
  destruct (process_links_Ok _ _ _ _ _ _ _ _ _ _ _ H)
    as (pos & tree & dn & mask & moved & cands & P1 & P2 & P3 & P4 & P5 & P6 & P7).
  destruct (positions_Ok _ _ _ _ _ P1) as (Hnext & Lcur & _).
  apply KDTree_init_Ok in P2. destruct P2 as [Hdata _].
  apply to_frame_Ok in P7. destruct P7 as [Hc Hdf].
  repeat split; auto.
  - intros E. apply Hdata. rewrite E in Lcur. simpl in Lcur.
    destruct (current_pos pos); [reflexivity | discriminate].
  - rewrite Hdf. destruct cands; [contradiction | discriminate].
  - intros pos' Hpos' Hnone. unfold process_links in H.
    rewrite Hpos' in H. simpl in H. rewrite Hnone in H. discriminate.
Qed.

(** C6, as the code has it.  With no current node or with no next node
    the run raises; a run in which no next node keeps a candidate raises
    [IndexError] at line 167; in each case nothing is appended.  A run that
    completes appends a batch of links that is not empty. *)
Theorem degenerate_inputs_are_errors time config db (images : list (Image Frame)) scale :
  (current_nodes db time = [] ->
   exists e, _process IoU intensity_mean intensity_std np_sqrt time config db images scale
             = Err e)
  /\ (next_nodes db time = [] ->
      exists e, _process IoU intensity_mean intensity_std np_sqrt time config db images scale
                = Err e)
  /\ (forall pos,
        positions (current_nodes db time) (next_nodes db time) (shift_rows db time) scale
        = Ok pos ->
        link_candidates IoU intensity_mean intensity_std np_sqrt time config images
                        (current_nodes db time) (next_nodes db time) pos = Ok [] ->
        _process IoU intensity_mean intensity_std np_sqrt time config db images scale
        = Err IndexError)
  /\ (forall db',
        _process IoU intensity_mean intensity_std np_sqrt time config db images scale
        = Ok db' ->
        appended db db' <> [] /\ links db' = links db ++ appended db db').
Proof.
  repeat split.
  - intros E.
    destruct (_process IoU intensity_mean intensity_std np_sqrt time config db images scale)
      as [db'|e] eqn:H; [|eauto].
    apply process_Ok_nondegenerate in H. destruct H as (N & _). contradiction.
  - intros E.
    destruct (_process IoU intensity_mean intensity_std np_sqrt time config db images scale)
      as [db'|e] eqn:H; [|eauto].
    apply process_Ok_nondegenerate in H. destruct H as (_ & N & _). contradiction.
  - intros pos Hpos Hnone. unfold _process, process_links.
    rewrite Hpos. simpl. rewrite Hnone. reflexivity.
  - apply process_Ok_nondegenerate in H. tauto.
  - apply process_Ok_nondegenerate in H. tauto.
Qed.

End Degenerate.

Lemma degenerate_inputs_are_errors_witness :
  (exists e, Instance.process 0 Instance.config Instance.no_current [] None = Err e)
  /\ (exists e, Instance.process 0 Instance.config Instance.no_next [] None = Err e)
  /\ Instance.process 0 Instance.config Instance.out_of_reach [] None = Err IndexError
  /\ appended Instance.store Instance.linked <> [].
Proof.
  destruct (degenerate_inputs_are_errors Instance.Frame Instance.IoU
              Instance.intensity_mean Instance.intensity_std Instance.sqrt
              0 Instance.config Instance.no_current [] None) as (H1 & _).
  destruct (degenerate_inputs_are_errors Instance.Frame Instance.IoU
              Instance.intensity_mean Instance.intensity_std Instance.sqrt
              0 Instance.config Instance.no_next [] None) as (_ & H2 & _).
  destruct (degenerate_inputs_are_errors Instance.Frame Instance.IoU
              Instance.intensity_mean Instance.intensity_std Instance.sqrt
              0 Instance.config Instance.out_of_reach [] None) as (_ & _ & H3 & _).
  destruct (degenerate_inputs_are_errors Instance.Frame Instance.IoU
              Instance.intensity_mean Instance.intensity_std Instance.sqrt
              0 Instance.config Instance.store [] None) as (_ & _ & _ & H4).
  split; [apply H1; reflexivity|].
  split; [apply H2; reflexivity|].
  split; [apply (H3 (mkPositions [[25; 25]] [[8; 9]] 2 [[0; 0]])); vm_compute; reflexivity|].
  apply (H4 Instance.linked). vm_compute; reflexivity.
Defined.

(** C6, as the spec has it, fails: with no current node, with no next node
    and with no candidate in reach the run raises instead of appending an
    empty set of links. *)
Lemma degenerate_inputs_raise :
  (current_nodes Instance.no_current 0 = []
   /\ Instance.process 0 Instance.config Instance.no_current [] None = Err ValueError)
  /\ (next_nodes Instance.no_next 0 = []
      /\ Instance.process 0 Instance.config Instance.no_next [] None = Err IndexError)
  /\ (link_candidates Instance.IoU Instance.intensity_mean Instance.intensity_std
                      Instance.sqrt 0 Instance.config []
                      (current_nodes Instance.out_of_reach 0)
                      (next_nodes Instance.out_of_reach 0)
                      (mkPositions [[25; 25]] [[8; 9]] 2 [[0; 0]]) = Ok []
      /\ Instance.process 0 Instance.config Instance.out_of_reach [] None = Err IndexError).
Proof.
  repeat split; vm_compute; reflexivity.
Qed.

(** ** The shift columns *)

Section Shift.

Variable Frame : Type.
Variable IoU : Node -> Node -> Q.
Variable intensity_mean : Node -> list Frame -> list Q.
Variable intensity_std : Node -> list Frame -> list Q.
Variable np_sqrt : Q -> Q.



End Shift.


(** ** Features before translation, IoU after *)

Lemma map2_app {A B C : Type} (f : A -> B -> C) (a1 a2 : list A) (b1 b2 : list B) :
  length a1 = length b1 ->
  Np.map2 f (a1 ++ a2) (b1 ++ b2) = Np.map2 f a1 b1 ++ Np.map2 f a2 b2.
Proof.
  revert b1; induction a1 as [|x a1 IH]; intros [|y b1]; simpl; intros L;
    try discriminate; [reflexivity|].
  rewrite IH by congruence. reflexivity.
Qed.

(** Lines 143 and 144 on a box of [2 * n_dim] entries: both corners move
    by the shift. *)
Lemma translate_bbox_corners n node shift node' :
  length (bbox node) = (2 * n)%nat -> length shift = n ->
  translate_bbox n node shift = Ok node' ->
  bbox node' = Np.map2 Z.add (bbox node) (shift ++ shift).
Proof.
  intros Lb Ls. unfold translate_bbox.
  assert (L1 : length (firstn n (bbox node)) = n) by (rewrite length_firstn; lia).
  assert (L2 : length (skipn n (bbox node)) = n) by (rewrite length_skipn; lia).
  rewrite inplace_same_length by congruence. simpl.
  set (low := Np.map2 Z.add (firstn n (bbox node)) shift).
  assert (Llow : length low = n) by (unfold low; rewrite map2_length; congruence).
  assert (Hs : Py.slice_last n (low ++ skipn n (bbox node)) = skipn n (bbox node)).
  { unfold Py.slice_last. destruct n as [|n'].
    - destruct low; [reflexivity | discriminate].
    - rewrite length_app, Llow, L2.
      replace (S n' + S n' - S n')%nat with (length low) by lia.
      rewrite skipn_app, skipn_all, Nat.sub_diag. reflexivity. }
  rewrite Hs. rewrite inplace_same_length by congruence. simpl.
  intros H; injection H as <-. simpl.
  rewrite map2_length by congruence.
  rewrite length_app, Llow, L2.
  replace (n + n - n)%nat with (length low) by lia.
  rewrite firstn_app, firstn_all, Nat.sub_diag, firstn_0, app_nil_r.
  transitivity (Np.map2 Z.add (firstn n (bbox node) ++ skipn n (bbox node))
                          (shift ++ shift)).
  - rewrite map2_app by congruence. reflexivity.
  - rewrite firstn_skipn. reflexivity.
Qed.

Section Extensionality.

Variable Frame : Type.
Variables IoU IoU' : Node -> Node -> Q.
Variables intensity_mean intensity_mean' : Node -> list Frame -> list Q.
Variables intensity_std intensity_std' : Node -> list Frame -> list Q.
Variable np_sqrt : Q -> Q.

Lemma score_ext cur dw node pairs :
  (forall neigh, In neigh cur -> IoU node neigh = IoU' node neigh) ->
  score IoU cur dw node pairs = score IoU' cur dw node pairs.
Proof.
  intros HI. induction pairs as [|[j d] pairs IH]; simpl; [reflexivity|].
  destruct (Np.take cur j) as [neigh|e] eqn:E; simpl; [|reflexivity].
  apply take_Ok, nth_error_In in E. rewrite IH, (HI neigh E). reflexivity.
Qed.

Lemma neighborhood_ext config cur node drow nrow frow :
  (forall neigh, In neigh cur -> IoU node neigh = IoU' node neigh) ->
  neighborhood IoU config cur node drow nrow frow
  = neighborhood IoU' config cur node drow nrow frow.
Proof.
  intros HI. unfold neighborhood, scored_candidates.
  destruct (Np.broadcast _ _ _) as [valid|e]; simpl; [|reflexivity].
  destruct (Np.select nrow valid) as [vn|e]; simpl; [|reflexivity].
  destruct (Np.select drow valid) as [vd|e]; simpl; [|reflexivity].
  rewrite (score_ext _ _ _ _ HI). reflexivity.
Qed.

Lemma link_loop_ext config cur moved D N F :
  (forall a b, In a moved -> In b cur -> IoU a b = IoU' a b) ->
  link_loop IoU config cur moved D N F = link_loop IoU' config cur moved D N F.
Proof.
  revert D N F; induction moved as [|node moved IH]; intros D N F HI; simpl;
    [reflexivity|].
  destruct D as [|d D]; [reflexivity|].
  destruct N as [|n N]; [reflexivity|].
  destruct F as [|f F]; [reflexivity|].
  rewrite (neighborhood_ext config cur node d n f)
    by (intros neigh Hn; apply HI; [left; reflexivity | exact Hn]).
  rewrite IH by (intros a b Ha Hb; apply HI; [right; exact Ha | exact Hb]).
  reflexivity.
Qed.

Lemma stack_features_ext (f f' : Node -> list Frame -> list Q) nodes frames :
  (forall n, In n nodes -> f n frames = f' n frames) ->
  Np.stack (map (fun node => f node frames) nodes)
  = Np.stack (map (fun node => f' node frames) nodes).
Proof.
  intros H. f_equal. apply map_ext_in. exact H.
Qed.

Lemma color_filter_ext time config (images : list (Image Frame)) cur next neighbors :
  (forall n fr, In n cur -> intensity_mean n fr = intensity_mean' n fr) ->
  (forall n fr, In n next ->
     intensity_mean n fr = intensity_mean' n fr /\ intensity_std n fr = intensity_std' n fr) ->
  color_filter intensity_mean intensity_std time config images cur next neighbors
  = color_filter intensity_mean' intensity_std' time config images cur next neighbors.
Proof.
  intros Hc Hn. unfold color_filter, _compute_features. simpl.
  rewrite (stack_features_ext intensity_mean intensity_mean' cur)
    by (intros n Hin; apply Hc, Hin).
  rewrite (stack_features_ext intensity_mean intensity_mean' next)
    by (intros n Hin; apply Hn, Hin).
  rewrite (stack_features_ext intensity_std intensity_std' next)
    by (intros n Hin; apply Hn, Hin).
  reflexivity.
Qed.

(** C7.  The colour filter samples the features at the next nodes as they
    are stored, boxes untranslated, and the translation by the rounded
    shift comes after it: the run depends on the feature functions only
    through their values at the stored nodes, and on the IoU only through
    its values at a translated next node and a current node; the box of a
    translated next node is the stored box with both corners moved by the
    rounded shift. *)
Theorem features_before_translation time config db (images : list (Image Frame)) scale
    pos moved :
  positions (current_nodes db time) (next_nodes db time) (shift_rows db time) scale = Ok pos ->
  translate_all (n_dim pos) (next_nodes db time) (next_shift pos) = Ok moved ->
  (forall n fr, In n (current_nodes db time) ->
     intensity_mean n fr = intensity_mean' n fr) ->
  (forall n fr, In n (next_nodes db time) ->
     intensity_mean n fr = intensity_mean' n fr /\ intensity_std n fr = intensity_std' n fr) ->
  (forall a b, In a moved -> In b (current_nodes db time) -> IoU a b = IoU' a b) ->
  _process IoU intensity_mean intensity_std np_sqrt time config db images scale
  = _process IoU' intensity_mean' intensity_std' np_sqrt time config db images scale
  /\ forall i target target' shift,
       nth_error (next_nodes db time) i = Some target ->
       nth_error moved i = Some target' ->
       nth_error (next_shift pos) i = Some shift ->
       length shift = n_dim pos ->
       length (bbox target) = (2 * n_dim pos)%nat ->
       bbox target'
       = Np.map2 Z.add (bbox target) (map Np.round shift ++ map Np.round shift).
Proof.
  intros Hpos Hmoved Hcur Hnext HI. split.
  - unfold _process, process_links. rewrite Hpos. simpl.
    unfold link_candidates.
    destruct (KDTree_init (current_pos pos)) as [tree|e]; simpl; [|reflexivity].
    destruct (KDTree_query np_sqrt tree (next_pos pos) _ _) as [dn|e]; simpl;
      [|reflexivity].
    rewrite (color_filter_ext time config images _ _ (snd dn) Hcur Hnext).
    destruct (color_filter intensity_mean' intensity_std' _ _ _ _ _ _) as [mask|e];
      simpl; [|reflexivity].
    rewrite Hmoved. simpl.
    rewrite (link_loop_ext config _ moved (fst dn) (snd dn) mask HI). reflexivity.
  - intros i target target' shift Ht Ht' Hs Ls Lb.
    destruct (translate_all_nth _ _ _ _ _ _ Hmoved Ht') as (tg & sh & Htg & Hsh & Hb).
    rewrite Ht in Htg; injection Htg as <-.
    rewrite Hs in Hsh; injection Hsh as <-.
    apply translate_bbox_corners in Hb; [exact Hb | exact Lb |].
    rewrite length_map. exact Ls.
Qed.

End Extensionality.

Lemma features_before_translation_witness :
  Instance.process 0 Instance.config_shifted Instance.store_shifted [Instance.by_id] None
  = _process Instance.IoU_moved_only Instance.mean_stored_only Instance.intensity_std
             Instance.sqrt 0 Instance.config_shifted Instance.store_shifted
             [Instance.by_id] None
  /\ bbox Instance.C_moved = Np.map2 Z.add (bbox Instance.C) ([2; 2] ++ [2; 2])%Z.
Proof.
  destruct (features_before_translation Instance.Frame
              Instance.IoU Instance.IoU_moved_only
              Instance.intensity_mean Instance.mean_stored_only
              Instance.intensity_std Instance.intensity_std Instance.sqrt
              0 Instance.config_shifted Instance.store_shifted [Instance.by_id] None
              Instance.pos_shifted [Instance.C_moved]) as [Hrun Hbox].
  - vm_compute; reflexivity.
  - vm_compute; reflexivity.
  - intros n fr [<-|[<-|[]]]; reflexivity.
  - intros n fr [<-|[]]. split; reflexivity.
  - intros a b [<-|[]] _. reflexivity.
  - split; [exact Hrun|].
    apply (Hbox 0%nat Instance.C Instance.C_moved [3 # 2; 5 # 2]); reflexivity.
Defined.

(** * Further properties of the worker *)

(** ** [_compute_features] *)



Lemma mapM_map {A B : Type} (f : A -> result B) (g : A -> B) (l : list A) l' :
  (forall x, In x l -> f x = Ok (g x)) -> mapM f l = Ok l' -> l' = map g l.
Proof.
  revert l'; induction l as [|x xs IH]; simpl; intros l' H E.
  - injection E as <-. reflexivity.
  - rewrite (H x) in E by auto. simpl in E. inv_bind E. injection E as <-.
    f_equal. apply IH; auto.
Qed.



Section Features.

Variable Frame : Type.

(** X1.  What [_compute_features] returns holds one array per feature
    function, in the order of the functions; the array of a function has
    one row per node, in the order of the nodes, the row of a node being
    the value of the function at that node and at the frames of [time]; it
    returns only if there is a node, unless there is no function. *)
Theorem compute_features_rows time nodes (images : list (Image Frame)) funcs arrays :
  _compute_features time nodes images funcs = Ok arrays ->
  length arrays = length funcs
  /\ (funcs <> [] -> nodes <> [])
  /\ forall k func, nth_error funcs k = Some func ->
       nth_error arrays k
       = Some (map (fun node => func node (map (fun image => image time) images)) nodes).
Proof.
  unfold _compute_features. intros H.
  pose proof (mapM_length _ _ _ H) as L. apply mapM_Forall2 in H.
  split; [exact L|]. split.
  - intros Hf Hn. destruct funcs as [|func funcs]; [contradiction|].
    inversion H as [|? ? ? ? Hs _]; subst. simpl in Hs. discriminate.
  - intros k func Hk.
    destruct (Forall2_nth_left _ _ _ H _ _ Hk) as (a & Ha & Hs).
    apply stack_Ok in Hs. destruct Hs as (-> & _). exact Ha.
Qed.


End Features.

Lemma compute_features_rows_witness :
  length [[[1]; [2]]] = length [Instance.intensity_mean]
  /\ nth_error [[[1]; [2]]] 0
     = Some (map (fun node => Instance.intensity_mean node
                                (map (fun image => image 0%Z) [Instance.by_id]))
                 [Instance.A; Instance.B]).
Proof.
  destruct (compute_features_rows Instance.Frame 0 [Instance.A; Instance.B]
              [Instance.by_id] [Instance.intensity_mean] [[[1]; [2]]])
    as (H1 & _ & H3).
  - vm_compute; reflexivity.
  - split; [exact H1|]. apply (H3 0%nat Instance.intensity_mean). reflexivity.
Defined.

(** ** What a run reads *)

Section Reads.

Variable Frame : Type.
Variable IoU : Node -> Node -> Q.
Variable intensity_mean : Node -> list Frame -> list Q.
Variable intensity_std : Node -> list Frame -> list Q.
Variable np_sqrt : Q -> Q.

(** X3.  A run for [time] reads the image sources at [time] and at
    [time + 1] only: two sequences of sources with the same frames at
    these two times give the same result. *)
Theorem images_read_at_two_times time config db (images images' : list (Image Frame)) scale :
  map (fun image => image time) images = map (fun image => image time) images' ->
  map (fun image => image (time + 1)%Z) images
  = map (fun image => image (time + 1)%Z) images' ->
  _process IoU intensity_mean intensity_std np_sqrt time config db images scale
  = _process IoU intensity_mean intensity_std np_sqrt time config db images' scale.
Proof.
  intros H0 H1.
  assert (L : length images = length images').
  { pose proof (f_equal (@length Frame) H0) as E. rewrite !length_map in E. exact E. }
  unfold _process, process_links, link_candidates, color_filter, _compute_features.
  rewrite H0, H1, L. reflexivity.
Qed.

(** X4.  A run for [time] reads the rows of the node table of [time] and
    of [time + 1] only, and does not read the link table: rows of other
    times added to the store, and other links in it, leave the frame of
    links that the run computes unchanged. *)
Theorem rows_of_other_times_ignored time config db (images : list (Image Frame)) scale
    extra other_links :
  (forall row, In row extra -> t row <> time /\ t row <> (time + 1)%Z) ->
  process_links IoU intensity_mean intensity_std np_sqrt time config
                (mkDatabase (nodes db ++ extra) other_links) images scale
  = process_links IoU intensity_mean intensity_std np_sqrt time config db images scale.
Proof.
  intros H.
  assert (F : forall u, (u = time \/ u = (time + 1)%Z) ->
              nodes_at (mkDatabase (nodes db ++ extra) other_links) u = nodes_at db u).
  { intros u Hu. unfold nodes_at. simpl. rewrite filter_app.
    rewrite (filter_none (fun row => (t row =? u)%Z) extra), app_nil_r; [reflexivity|].
    intros row Hr. apply Z.eqb_neq. destruct (H row Hr) as [N0 N1].
    destruct Hu as [->| ->]; assumption. }
  unfold process_links, current_nodes, next_nodes, shift_rows.
  rewrite !F by auto. reflexivity.
Qed.

(** X5.  Two runs commute: if the run for [t1] and then the run for [t2]
    complete, so do the run for [t2] and then the run for [t1]; each run
    appends the same batch in either order, after the links that the
    store held, and the two link tables hold the same links. *)
Theorem runs_commute t1 t2 config db (images : list (Image Frame)) scale db1 db12 :
  _process IoU intensity_mean intensity_std np_sqrt t1 config db images scale = Ok db1 ->
  _process IoU intensity_mean intensity_std np_sqrt t2 config db1 images scale = Ok db12 ->
  exists db2 db21,
    _process IoU intensity_mean intensity_std np_sqrt t2 config db images scale = Ok db2
    /\ _process IoU intensity_mean intensity_std np_sqrt t1 config db2 images scale = Ok db21
    /\ links db12 = links db ++ appended db db1 ++ appended db1 db12
    /\ links db21 = links db ++ appended db1 db12 ++ appended db db1
    /\ nodes db21 = nodes db12
    /\ Permutation (links db12) (links db21).
Proof.
  intros H1 H2.
  apply process_Ok in H1, H2.
  destruct H1 as (P1 & L1 & N1), H2 as (P2 & L2 & N2).
  set (a := appended db db1) in *. set (b := appended db1 db12) in *.
  rewrite (process_links_nodes _ _ _ _ _ _ _ db _ _ _ N1) in P2.
  exists (mkDatabase (nodes db) (links db ++ b)),
         (mkDatabase (nodes db) ((links db ++ b) ++ a)).
  split; [unfold _process; rewrite P2; reflexivity|].
  split.
  { unfold _process.
    rewrite (process_links_nodes _ _ _ _ _ _ _ db (mkDatabase (nodes db) (links db ++ b)))
      by reflexivity.
    rewrite P1. reflexivity. }
  split; [rewrite L2, L1, <- app_assoc; reflexivity|].
  split; [simpl; rewrite <- app_assoc; reflexivity|].
  split; [simpl; congruence|].
  rewrite L2, L1. simpl. rewrite <- !app_assoc.
  apply Permutation_app_head, Permutation_app_comm.
Qed.

End Reads.

Lemma images_read_at_two_times_witness :
  Instance.process 0 Instance.config_color Instance.store [Instance.by_id] None
  = Instance.process 0 Instance.config_color Instance.store [Scenario.by_id_early] None.
Proof.
  apply (images_read_at_two_times Instance.Frame Instance.IoU Instance.intensity_mean
           Instance.intensity_std Instance.sqrt 0 Instance.config_color Instance.store
           [Instance.by_id] [Scenario.by_id_early] None); reflexivity.
Defined.

Lemma rows_of_other_times_ignored_witness :
  Instance.frame 0 Instance.config
    (mkDatabase (nodes Instance.store ++ [Scenario.late]) [Instance.link_AC]) [] None
  = Instance.frame 0 Instance.config Instance.store [] None.
Proof.
  apply (rows_of_other_times_ignored Instance.Frame Instance.IoU Instance.intensity_mean
           Instance.intensity_std Instance.sqrt 0 Instance.config Instance.store [] None
           [Scenario.late] [Instance.link_AC]).
  intros row [<-|[]]. split; discriminate.
Defined.

Lemma runs_commute_witness :
  exists db2 db21,
    Instance.process 1 Instance.config Scenario.store3 [] None = Ok db2
    /\ Instance.process 0 Instance.config db2 [] None = Ok db21
    /\ links db21 = [Scenario.link_CE; Instance.link_AC].
Proof.
  destruct (runs_commute Instance.Frame Instance.IoU Instance.intensity_mean
              Instance.intensity_std Instance.sqrt 0 1 Instance.config
              Scenario.store3 [] None
              (mkDatabase (nodes Scenario.store3) [Instance.link_AC])
              (mkDatabase (nodes Scenario.store3) [Instance.link_AC; Scenario.link_CE]))
    as (db2 & db21 & H1 & H2 & _ & H4 & _).
  - vm_compute; reflexivity.
  - vm_compute; reflexivity.
  - exists db2, db21. split; [exact H1|]. split; [exact H2|]. exact H4.
Defined.

(** ** The shapes that a run accepts *)

Lemma inplace_Ok_length {A B : Type} (f : A -> B -> A) (a : list A) (b : list B) r :
  Np.inplace f a b = Ok r -> length r = length a.
Proof.
  unfold Np.inplace. destruct (Nat.eqb_spec (length b) (length a)) as [E|E].
  - intros H; injection H as <-. apply map2_length. auto.
  - destruct b as [|y [|? ?]]; try discriminate.
    intros H; injection H as <-. apply length_map.
Qed.

(** The three shift columns can be added to a centroid of one, two or
    three entries only. *)
Lemma shift_columns_fit (p : list Q) (row : NodeDB) r :
  Np.inplace Qplus p (Py.slice_last (length p) (shift_columns row)) = Ok r ->
  (1 <= length p <= 3)%nat.
Proof.
  unfold shift_columns, Np.inplace.
  destruct p as [|p0 [|p1 [|p2 [|p3 p]]]]; simpl; intros H; try discriminate; lia.
Qed.

Section Shapes.

Variable Frame : Type.
Variable IoU : Node -> Node -> Q.
Variable intensity_mean : Node -> list Frame -> list Q.
Variable intensity_std : Node -> list Frame -> list Q.
Variable np_sqrt : Q -> Q.

(** X6.  A run without [scale] completes only on nodes of one
    dimensionality [D] between one and three: the three shift columns are
    added to the positions of the next nodes (lines 95 to 97), and the k-d
    tree of the current positions is queried with them (lines 107 to 114),
    so that every centroid of the two times has [D] entries. *)
Theorem centroid_dimensions time config db (images : list (Image Frame)) db' :
  _process IoU intensity_mean intensity_std np_sqrt time config db images None = Ok db' ->
  exists D,
    (1 <= D <= 3)%nat
    /\ (forall n, In n (current_nodes db time) -> length (centroid n) = D)
    /\ (forall n, In n (next_nodes db time) -> length (centroid n) = D).
Proof.
  intros H. apply process_Ok in H. destruct H as (H & _ & _).
  destruct (process_links_Ok _ _ _ _ _ _ _ _ _ _ _ H)
    as (pos & tree & dn & mask & moved & cands & P1 & P2 & P3 & _).
  unfold positions in P1.
  inv_bind P1. rename v into cp, E into Ecp.
  apply asarray_Ok in Ecp. destruct Ecp as [-> Ucur].
  inv_bind P1. rename v into np0, E into Enp.
  apply asarray_Ok in Enp. destruct Enp as [-> Unext].
  inv_bind P1. rename v into D, E into ED.
  inv_bind P1. rename v into np1, E into Eadd.
  injection P1 as <-.
  remember (2 * max_neighbors config)%Z as k eqn:Ek. clear Ek.
  simpl in P2, P3.
  unfold next_nodes, shift_rows in *.
  destruct (nodes_at db (time + 1)) as [|r0 rows] eqn:Erows; [discriminate|].
  simpl in ED. injection ED as <-.
  simpl in Eadd. inv_bind Eadd. rename v into p1, E into Ep1.
  inv_bind Eadd. injection Eadd as <-.
  pose proof (shift_columns_fit _ _ _ Ep1) as HD.
  apply inplace_Ok_length in Ep1.
  unfold KDTree_init in P2.
  destruct (map centroid (current_nodes db time)) as [|c0 cs] eqn:Ec; [discriminate|].
  injection P2 as <-. simpl in P3.
  unfold KDTree_query in P3. destruct (k <? 1)%Z; [discriminate|].
  inv_bind P3. simpl in E0. inv_bind E0.
  destruct (Nat.eqb_spec (length p1) (length c0)) as [Em|]; [|discriminate].
  assert (Hm : forall n, In n (current_nodes db time) -> length (centroid n) = length c0).
  { intros n Hn. apply Ucur; [|left; reflexivity].
    rewrite <- Ec. apply in_map, Hn. }
  exists (length (centroid (pickle r0))). split; [exact HD|]. split.
  - intros n Hn. rewrite (Hm n Hn). congruence.
  - intros n Hn. apply Unext; [apply in_map, Hn | left; reflexivity].
Qed.

End Shapes.

Lemma centroid_dimensions_witness :
  exists D,
    (1 <= D <= 3)%nat
    /\ (forall n, In n (current_nodes Instance.store 0) -> length (centroid n) = D)
    /\ (forall n, In n (next_nodes Instance.store 0) -> length (centroid n) = D).
Proof.
  apply (centroid_dimensions Instance.Frame Instance.IoU Instance.intensity_mean
           Instance.intensity_std Instance.sqrt 0 Instance.config Instance.store []
           Instance.linked).
  vm_compute; reflexivity.
Defined.

(** ** The scale *)

Lemma slice_last_length {A : Type} (n : nat) (l : list A) :
  (1 <= n <= length l)%nat -> length (Py.slice_last n l) = n.
Proof.
  intros H. unfold Py.slice_last. destruct n as [|n']; [lia|].
  rewrite length_skipn. lia.
Qed.

Lemma times_scale_rows (m : nat) (pos : list (list Q)) (s : list Q)
    (out : list (list Q)) :
  (forall p, In p pos -> length (Py.slice_last m p) = length s) ->
  times_scale m pos s = Ok out ->
  out = map (fun p => Np.map2 Qmult (Py.slice_last m p) s) pos.
Proof.
  intros L H. unfold times_scale in H. destruct pos as [|p0 pos'].
  - inv_bind H. injection H as <-. reflexivity.
  - eapply mapM_map; [|exact H].
    intros p Hp. unfold Np.broadcast. rewrite (L p Hp), Nat.eqb_refl. reflexivity.
Qed.

(** X7.  With a [scale], only the trailing [min(n_dim, len(scale))] axes
    enter the positions, and so the distances: each scaled position is the
    unscaled one cut to its trailing axes and multiplied entry by entry
    with the trailing entries of [scale]; the leading axes are dropped.
    The shift that moves the boxes is not scaled. *)
Theorem scale_keeps_trailing_axes cur next shifts scale pos0 pos :
  positions cur next shifts None = Ok pos0 ->
  positions cur next shifts (Some scale) = Ok pos ->
  (1 <= Nat.min (n_dim pos0) (length scale))%nat ->
  (forall c, In c cur -> (Nat.min (n_dim pos0) (length scale) <= length (centroid c))%nat) ->
  n_dim pos = n_dim pos0
  /\ next_shift pos = next_shift pos0
  /\ next_pos pos
     = map (fun p => Np.map2 Qmult
                       (Py.slice_last (Nat.min (n_dim pos0) (length scale)) p)
                       (Py.slice_last (Nat.min (n_dim pos0) (length scale)) scale))
           (next_pos pos0)
  /\ current_pos pos
     = map (fun p => Np.map2 Qmult
                       (Py.slice_last (Nat.min (n_dim pos0) (length scale)) p)
                       (Py.slice_last (Nat.min (n_dim pos0) (length scale)) scale))
           (current_pos pos0).
Proof.
  intros H0 H Hm Hcur. unfold positions in H0, H.
  destruct (Np.asarray (map centroid cur)) as [cp|] eqn:Ecp; [|discriminate].
  destruct (Np.asarray (map centroid next)) as [np0|] eqn:Enp; [|discriminate].
  simpl in H0, H.
  destruct (Np.shape1 np0) as [n|] eqn:En; [|discriminate]. simpl in H0, H.
  destruct (mapM _ (combine np0 (map (Py.slice_last n) shifts))) as [np1|] eqn:Eadd;
    [|discriminate].
  simpl in H0, H. injection H0 as <-. simpl in *.
  set (m := Nat.min n (length scale)) in *.
  set (s := Py.slice_last m scale) in *.
  assert (Ls : length s = m) by (apply slice_last_length; lia).
  apply asarray_Ok in Ecp, Enp. destruct Ecp as [-> _], Enp as [-> Unext].
  assert (Ln : forall p, In p np1 -> length p = n).
  { intros p Hp. apply mapM_Forall2 in Eadd.
    apply In_nth_error in Hp. destruct Hp as [i Hi].
    destruct (Forall2_nth_right _ _ _ Eadd _ _ Hi) as ([c sh] & Hc & Hadd).
    apply inplace_Ok_length in Hadd. simpl in Hadd. rewrite Hadd.
    apply nth_error_combine in Hc. destruct Hc as [Hc _]. apply nth_error_In in Hc.
    destruct next as [|n0 next']; [discriminate|].
    simpl in En. injection En as <-. apply Unext; [exact Hc | left; reflexivity]. }
  inv_bind H. rename v into cp', E into Ec'.
  inv_bind H. rename v into np', E into En'.
  injection H as <-. simpl.
  apply times_scale_rows in Ec', En'.
  - subst. auto.
  - intros p Hp. rewrite Ls. apply slice_last_length. rewrite (Ln p Hp). lia.
  - intros p Hp. rewrite Ls. apply slice_last_length.
    apply in_map_iff in Hp. destruct Hp as (c & <- & Hc). specialize (Hcur c Hc). lia.
Qed.

Lemma scale_keeps_trailing_axes_witness :
  n_dim (mkPositions [[10]; [50]] [[18]] 2 [[0; 0]]) = n_dim Instance.pos0
  /\ next_pos (mkPositions [[10]; [50]] [[18]] 2 [[0; 0]])
     = map (fun p => Np.map2 Qmult (Py.slice_last 1 p) (Py.slice_last 1 [2]))
           (next_pos Instance.pos0).
Proof.
  destruct (scale_keeps_trailing_axes [Instance.A; Instance.B] [Instance.C] [[0; 0; 0]]
              [2] Instance.pos0 (mkPositions [[10]; [50]] [[18]] 2 [[0; 0]]))
    as (H1 & _ & H3 & _).
  - vm_compute; reflexivity.
  - vm_compute; reflexivity.
  - simpl; lia.
  - intros c [<-|[<-|[]]]; simpl; lia.
  - split; [exact H1 | exact H3].
Defined.

(** ** The size of a batch and the truncation *)

Lemma concat_length_bound {A B : Type} (n : nat) (xs : list A) (blocks : list (list B))
    (P : A -> list B -> Prop) :
  (forall x b, P x b -> (length b <= n)%nat) ->
  Forall2 P xs blocks -> (length (concat blocks) <= n * length xs)%nat.
Proof.
  intros HP HF. induction HF as [|x b xs blocks Hxb _ IH]; simpl; [lia|].
  rewrite length_app. specialize (HP x b Hxb). lia.
Qed.

Lemma StronglySorted_split {A : Type} (R : A -> A -> Prop) (n : nat) (l : list A) a b :
  StronglySorted R l -> In a (firstn n l) -> In b (skipn n l) -> R a b.
Proof.
  intros S. revert n; induction S as [|x l S IH Hx]; intros [|n] Ha Hb;
    simpl in *; try contradiction.
  destruct Ha as [<-|Ha].
  - rewrite Forall_forall in Hx. apply Hx.
    rewrite <- (firstn_skipn n l). apply in_or_app. right; exact Hb.
  - eapply IH; eauto.
Qed.

Section Truncation.

Variable Frame : Type.
Variable IoU : Node -> Node -> Q.
Variable intensity_mean : Node -> list Frame -> list Q.
Variable intensity_std : Node -> list Frame -> list Q.
Variable np_sqrt : Q -> Q.

(** X8.  A run appends at most [max_neighbors] links per next node,
    whatever the ids: the batch has at most [max_neighbors] times the
    number of next nodes links. *)
Theorem batch_size_bounded time config db (images : list (Image Frame)) scale db' :
  _process IoU intensity_mean intensity_std np_sqrt time config db images scale = Ok db' ->
  (Z.of_nat (length (appended db db'))
   <= max_neighbors config * Z.of_nat (length (next_nodes db time)))%Z.
Proof.
  intros H. apply process_Ok in H. destruct H as (H & _ & _).
  destruct (process_links_blocks _ _ _ _ _ _ _ _ _ _ _ H) as (K & hoods & -> & HF).
  rewrite length_map.
  assert (B : (length (concat hoods)
               <= Z.to_nat (max_neighbors config) * length (next_nodes db time))%nat).
  { eapply concat_length_bound; [|exact HF].
    intros target hood (target' & drow & nrow & frow & _ & Hnb).
    apply neighborhood_Ok in Hnb. destruct Hnb as (scored & _ & ->).
    pose proof (slice_to_length (max_neighbors config)
                  (Py.sorted_reverse tuple_lt scored)) as Hl. lia. }
  nia.
Qed.

(** X9.  Line 163 keeps the best candidates of a next node: what is kept
    and what is dropped make up the scored candidates, every kept
    candidate ranks before every dropped one in the key (score, negative
    distance, current-node id), and [min(max_neighbors, number of scored
    candidates)] are kept. *)
Theorem truncation_keeps_best config cur node drow nrow frow scored hood :
  (0 <= max_neighbors config)%Z ->
  scored_candidates IoU config cur node drow nrow frow = Ok scored ->
  neighborhood IoU config cur node drow nrow frow = Ok hood ->
  length hood = Nat.min (Z.to_nat (max_neighbors config)) (length scored)
  /\ exists dropped,
       Permutation scored (hood ++ dropped)
       /\ forall a b, In a hood -> In b dropped -> ranks_before a b.
Proof.
  intros Hm Hs Hn.
  apply neighborhood_Ok in Hn. destruct Hn as (scored' & Hs' & ->).
  rewrite Hs in Hs'; injection Hs' as <-.
  unfold Py.slice_to. destruct (Z.leb_spec 0 (max_neighbors config)); [|lia].
  set (n := Z.to_nat (max_neighbors config)).
  set (S := Py.sorted_reverse tuple_lt scored).
  assert (P : Permutation S scored) by apply sorted_perm.
  split.
  - rewrite length_firstn, (Permutation_length P). reflexivity.
  - exists (skipn n S). split.
    + rewrite firstn_skipn. symmetry; exact P.
    + intros a b Ha Hb. apply tuple_ge_ranks.
      * assert (In a scored)
          by (apply (Permutation_in _ P); eapply firstn_In; exact Ha).
        assert (In b scored).
        { apply (Permutation_in _ P). rewrite <- (firstn_skipn n S).
          apply in_or_app. right; exact Hb. }
        rewrite (scored_candidates_target _ _ _ _ _ _ _ _ _ Hs H0),
                (scored_candidates_target _ _ _ _ _ _ _ _ _ Hs H1).
        reflexivity.
      * eapply StronglySorted_split; [apply sorted_reverse_sorted | exact Ha | exact Hb].
Qed.

End Truncation.

Lemma batch_size_bounded_witness :
  (Z.of_nat (length (appended Instance.store Instance.linked))
   <= max_neighbors Instance.config * Z.of_nat (length (next_nodes Instance.store 0)))%Z.
Proof.
  apply (batch_size_bounded Instance.Frame Instance.IoU Instance.intensity_mean
           Instance.intensity_std Instance.sqrt 0 Instance.config Instance.store
           [] None Instance.linked).
  vm_compute; reflexivity.
Defined.

Lemma truncation_keeps_best_witness :
  length [Instance.tie_high] = Nat.min 1 2
  /\ exists dropped,
       Permutation [Instance.tie_low; Instance.tie_high] ([Instance.tie_high] ++ dropped)
       /\ forall a b, In a [Instance.tie_high] -> In b dropped -> ranks_before a b.
Proof.
  apply (truncation_keeps_best Instance.IoU Instance.config
           [Instance.A; Instance.A3] Instance.C [Finite 5; Finite 5]
           [0; 1]%nat [true; true] [Instance.tie_low; Instance.tie_high]
           [Instance.tie_high]).
  - simpl; lia.
  - vm_compute; reflexivity.
  - vm_compute; reflexivity.
Defined.

(** ** The threshold of the colour filter *)

Section Threshold.

Variable Frame : Type.
Variable intensity_mean : Node -> list Frame -> list Q.
Variable intensity_std : Node -> list Frame -> list Q.

(** X10.  The colour filter is monotone in [z_score_threshold]: with a
    larger threshold it returns whenever it did with the smaller one, and
    every entry that was [True] stays [True]. *)
Theorem color_filter_monotone time config config' (images : list (Image Frame))
    cur next neighbors mask :
  z_score_threshold config <= z_score_threshold config' ->
  color_filter intensity_mean intensity_std time config images cur next neighbors = Ok mask ->
  exists mask',
    color_filter intensity_mean intensity_std time config' images cur next neighbors
    = Ok mask'
    /\ forall i s, entry mask i s = Some true -> entry mask' i s = Some true.
Proof.
  intros Hthr H. unfold color_filter in *.
  destruct (0 <? length images).
  - inv_bind H. rewrite E. simpl.
    destruct v as [|cf [|? ?]]; try discriminate.
    inv_bind H. rewrite E0. simpl.
    inv_bind H. rewrite E1. simpl.
    destruct v0 as [|nf [|sd [|? ?]]]; try discriminate.
    unfold z_score_mask in *.
    inv_bind H. rewrite E2. simpl.
    inv_bind H. rewrite E3. simpl.
    inv_bind H. rewrite E4. simpl.
    inv_bind H. rewrite E5. simpl. rename v3 into maxima.
    injection H as <-. eexists. split; [reflexivity|].
    intros i s. unfold entry. rewrite !nth_error_map.
    destruct (nth_error maxima i) as [row|]; simpl; [|discriminate].
    rewrite !nth_error_map.
    destruct (nth_error row s) as [z|]; simpl; [|discriminate].
    intros Hz. injection Hz as Hz. f_equal.
    apply Qle_bool_iff in Hz. apply Qle_bool_iff. eapply Qle_trans; eauto.
  - injection H as <-. eexists. split; [reflexivity | auto].
Qed.

End Threshold.

Lemma color_filter_monotone_witness :
  exists mask',
    color_filter Instance.intensity_mean Instance.intensity_std 0
                 (mkLinkingConfig 1 6 (1 # 10) 7) [Instance.by_id]
                 [Instance.A; Instance.B] [Instance.C] [[0; 2]]%nat
    = Ok mask'
    /\ forall i s, entry Instance.mask_color i s = Some true -> entry mask' i s = Some true.
Proof.
  apply (color_filter_monotone Instance.Frame Instance.intensity_mean
           Instance.intensity_std 0 Instance.config_color
           (mkLinkingConfig 1 6 (1 # 10) 7) [Instance.by_id]
           [Instance.A; Instance.B] [Instance.C] [[0; 2]]%nat Instance.mask_color).
  - vm_compute; discriminate.
  - vm_compute; reflexivity.
Defined.

(** ** The translation of the boxes *)

Lemma inplace_add_zero (a : list Z) (shift : list Z) r :
  (forall z, In z shift -> z = 0%Z) ->
  Np.inplace Z.add a shift = Ok r -> r = a.
Proof.
  intros Hz. unfold Np.inplace.
  destruct (Nat.eqb_spec (length shift) (length a)) as [L|_].
  - intros H; injection H as <-. revert shift Hz L.
    induction a as [|x a IH]; intros [|y shift] Hz L; simpl in *;
      try discriminate; [reflexivity|].
    rewrite (Hz y) by (left; reflexivity). rewrite Z.add_0_r. f_equal.
    apply IH; [|congruence]. intros z Hin. apply Hz. right; exact Hin.
  - destruct shift as [|y [|? ?]]; try discriminate.
    intros H; injection H as <-. rewrite (Hz y) by (left; reflexivity).
    rewrite <- (map_id a) at 2. apply map_ext. intros x. apply Z.add_0_r.
Qed.

Lemma slice_last_suffix {A : Type} (n : nat) (l : list A) :
  firstn (length l - length (Py.slice_last n l)) l ++ Py.slice_last n l = l.
Proof.
  unfold Py.slice_last. destruct n as [|n'].
  - rewrite Nat.sub_diag. reflexivity.
  - rewrite length_skipn.
    replace (length l - (length l - (length l - S n')))%nat
      with (length l - S n')%nat by lia.
    apply firstn_skipn.
Qed.

(** X11.  The translation of lines 140 to 144 changes the box of a node
    and nothing else: the id and the centroid are kept, and the box keeps
    its number of entries; with a shift that rounds to zero on every axis
    the node is unchanged. *)
Theorem translation_changes_the_box_only n node shift node' :
  translate_bbox n node (map Np.round shift) = Ok node' ->
  id node' = id node /\ centroid node' = centroid node
  /\ length (bbox node') = length (bbox node)
  /\ ((forall q, In q shift -> Np.round q = 0%Z) -> node' = node).
Proof.
  unfold translate_bbox. intros H.
  inv_bind H. rename v into low, E into Elow.
  inv_bind H. rename v into high, E into Ehigh.
  injection H as <-. simpl.
  pose proof (inplace_Ok_length _ _ _ _ Elow) as Llow.
  pose proof (inplace_Ok_length _ _ _ _ Ehigh) as Lhigh.
  set (b1 := low ++ skipn n (bbox node)) in *.
  assert (Lb1 : length b1 = length (bbox node)).
  { unfold b1. rewrite length_app, Llow, <- length_app, firstn_skipn. reflexivity. }
  repeat split.
  - assert (Lle : (length (Py.slice_last n b1) <= length b1)%nat).
    { unfold Py.slice_last. destruct n; [lia | rewrite length_skipn; lia]. }
    rewrite length_app, length_firstn, Lhigh. lia.
  - intros Hz.
    assert (Z0 : forall z, In z (map Np.round shift) -> z = 0%Z).
    { intros z Hin. apply in_map_iff in Hin. destruct Hin as (q & <- & Hq). auto. }
    apply (inplace_add_zero _ _ _ Z0) in Elow. subst low.
    assert (Eb1 : b1 = bbox node) by (unfold b1; apply firstn_skipn).
    apply (inplace_add_zero _ _ _ Z0) in Ehigh. subst high.
    unfold with_bbox. rewrite slice_last_suffix, Eb1.
    destruct node; reflexivity.
Qed.

(** X12.  A box with fewer entries than the [n_dim >= 2] entries of the
    shift cannot be translated: line 143 raises [ValueError]. *)
Theorem short_box_raises n node shift :
  (2 <= n)%nat -> length shift = n -> (length (bbox node) < n)%nat ->
  translate_bbox n node shift = Err ValueError.
Proof.
  intros Hn Ls Lb. unfold translate_bbox, Np.inplace.
  rewrite length_firstn.
  destruct (Nat.eqb_spec (length shift) (Nat.min n (length (bbox node)))) as [E|_]; [lia|].
  destruct shift as [|y [|y' shift]]; simpl in Ls; try lia; reflexivity.
Qed.

Lemma translation_changes_the_box_only_witness :
  id Instance.C_moved = id Instance.C /\ centroid Instance.C_moved = centroid Instance.C
  /\ length (bbox Instance.C_moved) = length (bbox Instance.C).
Proof.
  destruct (translation_changes_the_box_only 2 Instance.C [3 # 2; 5 # 2] Instance.C_moved)
    as (H1 & H2 & H3 & _).
  - vm_compute; reflexivity.
  - repeat split; assumption.
Defined.

Lemma short_box_raises_witness :
  translate_bbox 2 (mkNode 7 [8; 9] [3]%Z) [2; 2]%Z = Err ValueError.
Proof.
  apply (short_box_raises 2 (mkNode 7 [8; 9] [3]%Z) [2; 2]%Z); simpl; lia.
Defined.

(** ** The range of the weights *)

Section Weights.

Variable Frame : Type.
Variable IoU : Node -> Node -> Q.
Variable intensity_mean : Node -> list Frame -> list Q.
Variable intensity_std : Node -> list Frame -> list Q.
Variable np_sqrt : Q -> Q.

(** X13.  With an overlap between 0 and 1, a square root that is not
    negative and a [distance_weight] that is not negative, every weight
    that a run writes lies between [- distance_weight * max_distance] and
    1: the distance of a linked pair is below [max_distance]. *)
Theorem weights_in_range time config db (images : list (Image Frame)) scale db' l :
  (forall a b, 0 <= IoU a b <= 1) ->
  (forall q, 0 <= np_sqrt q) ->
  0 <= distance_weight config ->
  _process IoU intensity_mean intensity_std np_sqrt time config db images scale = Ok db' ->
  In l (appended db db') ->
  - (distance_weight config * max_distance config) <= weight l <= 1.
Proof.
  intros HI Hs Hw H Hl.
  apply process_Ok in H. destruct H as (H & _ & _).
  destruct (process_links_Ok _ _ _ _ _ _ _ _ _ _ _ H)
    as (pos & tree & dn & mask & moved & cands & P1 & P2 & P3 & P4 & P5 & _ & _).
  destruct (link_provenance _ _ _ _ _ _ _ _ _ _ _ _ _ _ _ _ _ H P1 P2 P3 P4 P5 Hl)
    as (i & s & j & source & target & target' & p_next & p_cur
        & _ & _ & _ & _ & _ & _ & _ & _ & Hnear & ->).
  simpl. set (d := distance np_sqrt p_next p_cur) in *.
  assert (Hd : 0 <= d) by apply Hs.
  assert (Hlo : distance_weight config * d <= distance_weight config * max_distance config).
  { rewrite (Qmult_comm _ d), (Qmult_comm _ (max_distance config)).
    apply Qmult_le_compat_r; [apply Qlt_le_weak, Hnear | exact Hw]. }
  assert (Hpos : 0 <= distance_weight config * d) by (apply Qmult_le_0_compat; assumption).
  destruct (HI target' source) as [I0 I1].
  split; lra.
Qed.

End Weights.

Lemma Instance_sqrt_nonneg (q : Q) : 0 <= Instance.sqrt q.
Proof.
  unfold Instance.sqrt, Qle. simpl. rewrite Z.mul_1_r. apply Z.sqrt_nonneg.
Qed.

Lemma weights_in_range_witness :
  - (distance_weight Instance.config * max_distance Instance.config)
  <= weight Scenario.link_half <= 1.
Proof.
  apply (weights_in_range Instance.Frame Scenario.half Instance.intensity_mean
           Instance.intensity_std Instance.sqrt 0 Instance.config Instance.store
           [] None Scenario.linked_half Scenario.link_half).
  - intros a b. unfold Scenario.half. split; discriminate.
  - exact Instance_sqrt_nonneg.
  - discriminate.
  - vm_compute; reflexivity.
  - simpl; auto.
Defined.

(** ** Pairs that fail the colour test *)

Lemma NoDup_map_eq {A B : Type} (f : A -> B) (l : list A) (x y : A) :
  NoDup (map f l) -> In x l -> In y l -> f x = f y -> x = y.
Proof.
  induction l as [|a l IH]; simpl; intros ND Hx Hy E; [contradiction|].
  inversion ND as [|? ? Hn ND']; subst.
  destruct Hx as [<-|Hx], Hy as [<-|Hy]; auto.
  - exfalso. apply Hn. rewrite E. apply in_map, Hy.
  - exfalso. apply Hn. rewrite <- E. apply in_map, Hx.
Qed.

Section ColorEntry.

Variable Frame : Type.
Variable intensity_mean : Node -> list Frame -> list Q.
Variable intensity_std : Node -> list Frame -> list Q.

(** The entry of the colour filter for a next node and the candidate of
    one of its slots. *)
Lemma color_entry time config (images : list (Image Frame)) cur next neighbors mask
    i s target j current_feature :
  color_filter intensity_mean intensity_std time config images cur next neighbors = Ok mask ->
  (forall n fr, length (intensity_mean n fr) = length fr) ->
  (forall n fr, length (intensity_std n fr) = length fr) ->
  images <> [] ->
  nth_error next i = Some target ->
  entry neighbors i s = Some j ->
  nth_error (map (fun c => intensity_mean c (map (fun image => image time) images)) cur
             ++ [repeat 0 (length images)]) j = Some current_feature ->
  exists b,
    entry mask i s = Some b
    /\ (b = true <->
        passes_color (z_score_threshold config)
          (intensity_mean target (map (fun image => image (time + 1)%Z) images))
          current_feature
          (intensity_std target (map (fun image => image (time + 1)%Z) images))).
Proof.
  intros H Hmean Hstd Himg Ht Hj Hc. unfold color_filter in H.
  assert (Hlen : (0 <? length images) = true)
    by (destruct images; [contradiction | reflexivity]).
  rewrite Hlen in H.
  inv_bind H. destruct v as [|cf [|? ?]]; try discriminate.
  inv_bind H. rename v into width.
  inv_bind H. destruct v as [|nf [|sd [|? ?]]]; try discriminate.
  apply compute_features_one in E. destruct E as [_ Ecf].
  apply compute_features_two in E1. destruct E1 as [Enf Esd].
  assert (W : width = length images).
  { rewrite Ecf in E0. destruct cur as [|c0 cur']; [discriminate|].
    simpl in E0. injection E0 as <-. rewrite Hmean, length_map. reflexivity. }
  subst width. rewrite <- Ecf in Hc.
  pose proof (z_score_mask_length _ _ _ _ _ _ H) as Lm.
  apply entry_Some in Hj. destruct Hj as (nrow & Hn & Hs).
  assert (Hi : (i < length mask)%nat).
  { rewrite Lm, length_map, Enf, Esd, !length_map.
    assert (i < length next)%nat by (apply nth_error_Some; congruence).
    assert (i < length neighbors)%nat by (apply nth_error_Some; congruence).
    lia. }
  destruct (nth_error mask i) as [frow|] eqn:Hfrow;
    [|apply nth_error_None in Hfrow; lia].
  destruct (z_score_mask_entry _ _ _ _ _ _ _ _ H Hfrow)
    as (nrow' & f & sdev & Hn' & Hf & Hsd & Lf & Hent).
  rewrite Hn in Hn'; injection Hn' as <-.
  assert (Hsl : (s < length frow)%nat)
    by (rewrite Lf; apply nth_error_Some; congruence).
  destruct (nth_error frow s) as [b|] eqn:Hb; [|apply nth_error_None in Hb; lia].
  exists b. split; [apply entry_Some; eauto|].
  destruct (Hent s b Hb) as (j' & c & diff & diff' & z & Hj' & Hc' & Hsub & Hdiv & Hmax & ->).
  rewrite Hs in Hj'; injection Hj' as <-.
  rewrite Hc in Hc'; injection Hc' as <-.
  rewrite Enf, nth_error_map, Ht in Hf. simpl in Hf. injection Hf as <-.
  rewrite nth_error_map, Esd, nth_error_map, Ht in Hsd. simpl in Hsd.
  injection Hsd as <-.
  set (frames := map (fun image => image (time + 1)%Z) images) in *.
  assert (Lc : length current_feature = length images).
  { apply nth_error_In in Hc. apply in_app_or in Hc. destruct Hc as [Hc|[<-|[]]].
    - rewrite Ecf in Hc. apply in_map_iff in Hc. destruct Hc as (c & <- & _).
      rewrite Hmean, length_map. reflexivity.
    - apply repeat_length. }
  assert (Lf' : length (intensity_mean target frames) = length images)
    by (rewrite Hmean; unfold frames; apply length_map).
  apply broadcast_same_length in Hsub; [|congruence]. subst diff.
  rewrite inplace_same_length in Hdiv.
  + injection Hdiv as <-. apply max_le_passes, Hmax.
  + rewrite length_map, Hstd, map2_length by congruence.
    rewrite Lf'. unfold frames. apply length_map.
Qed.

End ColorEntry.

Section Mismatch.

Variable Frame : Type.
Variable IoU : Node -> Node -> Q.
Variable intensity_mean : Node -> list Frame -> list Q.
Variable intensity_std : Node -> list Frame -> list Q.
Variable np_sqrt : Q -> Q.

(** X14.  With image sources, a current node and a next node that fail
    the colour test are never linked, however near they are: no link of
    the batch joins them.  The features have one value per channel and
    the ids identify the nodes of each time. *)
Theorem color_mismatch_never_linked time config db (images : list (Image Frame)) scale
    db' source target l :
  _process IoU intensity_mean intensity_std np_sqrt time config db images scale = Ok db' ->
  images <> [] ->
  (forall n fr, length (intensity_mean n fr) = length fr) ->
  (forall n fr, length (intensity_std n fr) = length fr) ->
  NoDup (map id (current_nodes db time)) ->
  NoDup (map id (next_nodes db time)) ->
  In source (current_nodes db time) ->
  In target (next_nodes db time) ->
  ~ passes_color (z_score_threshold config)
      (intensity_mean target (map (fun image => image (time + 1)%Z) images))
      (intensity_mean source (map (fun image => image time) images))
      (intensity_std target (map (fun image => image (time + 1)%Z) images)) ->
  In l (appended db db') ->
  ~ (source_id l = inject_Z (id source) /\ target_id l = inject_Z (id target)).
Proof.
  intros H Himg Hmean Hstd Ncur Nnext Hsrc Htgt Hfail Hl [Es Et].
  apply process_Ok in H. destruct H as (H & _ & _).
  destruct (process_links_Ok _ _ _ _ _ _ _ _ _ _ _ H)
    as (pos & tree & dn & mask & moved & cands & P1 & P2 & P3 & P4 & P5 & _ & _).
  destruct (link_provenance _ _ _ _ _ _ _ _ _ _ _ _ _ _ _ _ _ H P1 P2 P3 P4 P5 Hl)
    as (i & s & j & source' & target' & moved' & p_next & p_cur
        & _ & Hj & Hm & Hs' & Ht' & _ & _ & _ & _ & ->).
  simpl in Es, Et.
  assert (source' = source).
  { apply (NoDup_map_eq id (current_nodes db time)); auto.
    - eapply nth_error_In; eauto.
    - injection Es as Es. lia. }
  assert (target' = target).
  { apply (NoDup_map_eq id (next_nodes db time)); auto.
    - eapply nth_error_In; eauto.
    - injection Et as Et. lia. }
  subst source' target'.
  assert (Hc : nth_error
                 (map (fun c => intensity_mean c (map (fun image => image time) images))
                      (current_nodes db time) ++ [repeat 0 (length images)]) j
               = Some (intensity_mean source (map (fun image => image time) images))).
  { rewrite nth_error_app1.
    - rewrite nth_error_map, Hs'. reflexivity.
    - rewrite length_map. apply nth_error_Some. congruence. }
  destruct (color_entry _ _ _ _ _ _ _ _ _ _ _ _ _ _ _ P4 Hmean Hstd Himg Ht' Hj Hc)
    as (b & Hb & Hiff).
  rewrite Hm in Hb. injection Hb as <-. apply Hfail, Hiff. reflexivity.
Qed.

End Mismatch.

Lemma color_mismatch_never_linked_witness :
  ~ (source_id Scenario.link_A3C = inject_Z (id Instance.A)
     /\ target_id Scenario.link_A3C = inject_Z (id Instance.C)).
Proof.
  apply (color_mismatch_never_linked Instance.Frame Instance.IoU Instance.intensity_mean
           Instance.intensity_std Instance.sqrt 0 Scenario.config_colors
           Scenario.store_colors [Instance.by_id] None Scenario.linked_colors
           Instance.A Instance.C Scenario.link_A3C).
  - vm_compute; reflexivity.
  - discriminate.
  - intros n fr. apply length_map.
  - intros n fr. apply length_map.
  - simpl. repeat constructor; simpl; intuition discriminate.
  - simpl. repeat constructor; simpl; intuition discriminate.
  - simpl; auto.
  - simpl; auto.
  - intros (z & [(y & Hy & E) _] & Hz).
    destruct Hy as [<-|[]]. rewrite <- E in Hz. vm_compute in Hz. apply Hz. reflexivity.
  - simpl; auto.
Defined.

(** ** No link twice *)

Lemma enumerate_from_fst {A : Type} (i : nat) (l : list A) :
  map fst (Py.enumerate_from i l) = seq i (length l).
Proof.
  revert i; induction l as [|x l IH]; simpl; intros i; [reflexivity|].
  rewrite IH. reflexivity.
Qed.

Lemma NoDup_map_filter {A B : Type} (g : A -> B) (p : A -> bool) (l : list A) :
  NoDup (map g l) -> NoDup (map g (filter p l)).
Proof.
  induction l as [|x l IH]; simpl; intros ND; [constructor|].
  inversion ND as [|? ? Hn ND']; subst.
  destruct (p x); simpl; [|auto].
  constructor; [|auto]. intros Hin. apply Hn.
  apply in_map_iff in Hin. destruct Hin as (y & E & Hy).
  apply filter_In in Hy. destruct Hy as [Hy _].
  rewrite <- E. apply in_map, Hy.
Qed.

Lemma NoDup_map_firstn {A B : Type} (g : A -> B) (n : nat) (l : list A) :
  NoDup (map g l) -> NoDup (map g (firstn n l)).
Proof.
  intros ND. rewrite <- (firstn_skipn n l), map_app in ND.
  eapply NoDup_app_remove_r; eauto.
Qed.

(** The data points that a row of the query result holds are distinct. *)
Lemma query_point_distinct (np_sqrt : Q -> Q) (tree : KDTree) k r p :
  NoDup (map snd (filter (fun x => negb (isinf (fst x)))
                         (query_point np_sqrt tree k r p))).
Proof.
  unfold query_point.
  set (all := map _ (Py.enumerate (data tree))).
  set (hits := firstn k _).
  rewrite filter_app.
  assert (F1 : filter (fun x : dist * nat => negb (isinf (fst x)))
                      (map (fun dj : Q * nat => (Finite (fst dj), snd dj)) hits)
               = map (fun dj : Q * nat => (Finite (fst dj), snd dj)) hits).
  { induction hits as [|h hs IH]; simpl; [reflexivity | rewrite IH; reflexivity]. }
  assert (F2 : filter (fun x : dist * nat => negb (isinf (fst x)))
                      (repeat (Inf, length (data tree)) (k - length hits)) = []).
  { induction (k - length hits)%nat; simpl; auto. }
  rewrite F1, F2, app_nil_r, map_map. simpl.
  unfold hits. apply NoDup_map_firstn.
  eapply Permutation_NoDup.
  - apply Permutation_map. symmetry. apply sorted_perm.
  - apply NoDup_map_filter. unfold all. rewrite map_map. simpl.
    unfold Py.enumerate. rewrite enumerate_from_fst. apply seq_NoDup.
Qed.

Lemma select_combine {A B : Type} (a : list A) (b : list B) (mask : list bool) ra rb :
  length a = length b ->
  Np.select a mask = Ok ra -> Np.select b mask = Ok rb ->
  Np.select (combine a b) mask = Ok (combine ra rb).
Proof.
  unfold Np.select. intros L.
  destruct (Nat.eqb_spec (length mask) (length a)) as [La|]; [|discriminate].
  destruct (Nat.eqb_spec (length mask) (length b)) as [Lb|]; [|discriminate].
  intros Ha Hb; injection Ha as <-; injection Hb as <-.
  rewrite length_combine, <- L, Nat.min_id, La, Nat.eqb_refl. f_equal.
  clear L. revert a b La Lb; induction mask as [|v mask IH]; intros [|a0 a] [|b0 b] La Lb;
    simpl in *; try discriminate; [reflexivity|].
  destruct v; simpl; rewrite (IH a b) by congruence; reflexivity.
Qed.

Lemma select_filter_NoDup {A B : Type} (g : A -> B) (p : A -> bool) (l : list A)
    (mask : list bool) sel :
  Np.select l mask = Ok sel ->
  NoDup (map g (filter p l)) -> NoDup (map g (filter p sel)).
Proof.
  unfold Np.select. destruct (_ =? _); [|discriminate].
  intros H; injection H as <-. revert mask.
  induction l as [|x l IH]; intros [|b mask] ND; simpl; try constructor.
  assert (ND' : NoDup (map g (filter p l))).
  { simpl in ND. destruct (p x); [inversion ND; assumption | exact ND]. }
  destruct b; simpl; [|auto].
  destruct (p x) eqn:Px; simpl; [|auto].
  simpl in ND. rewrite Px in ND. inversion ND as [|? ? Hn _]; subst.
  constructor; [|auto]. intros Hin. apply Hn.
  apply in_map_iff in Hin. destruct Hin as (y & E & Hy).
  apply filter_In in Hy. destruct Hy as [Hy Py].
  apply in_map_iff in Hy. destruct Hy as ([y' b'] & Ey & Hy'). simpl in Ey; subst y'.
  apply filter_In in Hy'. destruct Hy' as [Hy' _]. apply in_combine_l in Hy'.
  rewrite <- E. apply in_map. apply filter_In. auto.
Qed.

Lemma NoDup_map_injective {A B : Type} (f : A -> B) (l : list A) :
  (forall x y, f x = f y -> x = y) -> NoDup l -> NoDup (map f l).
Proof.
  intros Hf ND. induction ND as [|x l Hn _ IH]; simpl; constructor; [|exact IH].
  intros Hin. apply Hn. apply in_map_iff in Hin. destruct Hin as (y & E & Hy).
  apply Hf in E. subst y. exact Hy.
Qed.

Lemma finite_slots_of_row (qp : list (dist * nat)) :
  map fst (filter (fun x : nat * dist => negb (isinf (snd x)))
                  (combine (map snd qp) (map fst qp)))
  = map snd (filter (fun x : dist * nat => negb (isinf (fst x))) qp).
Proof.
  induction qp as [|[d j] qp IH]; simpl; [reflexivity|].
  destruct (negb (isinf d)); simpl; rewrite IH; reflexivity.
Qed.

Lemma concat_pairs_distinct (targets : list Node) (hoods : list (list candidate)) :
  NoDup (map id targets) ->
  Forall2 (fun target hood =>
             (forall c, In c hood -> target_of c = id target)
             /\ NoDup (map source_of hood))
          targets hoods ->
  NoDup (map (fun c => (source_of c, target_of c)) (concat hoods)).
Proof.
  intros ND HF. induction HF as [|target hood targets hoods [Ht Hs] HF IH]; simpl;
    [constructor|].
  inversion ND as [|? ? Hnotin ND']; subst.
  rewrite map_app. apply NoDup_app.
  - clear - Ht Hs. induction hood as [|c hood IHh]; simpl; [constructor|].
    inversion Hs as [|? ? Hn Hs']; subst.
    constructor.
    + intros Hin. apply Hn. apply in_map_iff in Hin. destruct Hin as (c' & E & Hc').
      injection E as E _. rewrite <- E. apply in_map, Hc'.
    + apply IHh; [|exact Hs']. intros c' Hc'. apply Ht. right; exact Hc'.
  - apply IH, ND'.
  - intros [src tgt] H1 H2.
    apply in_map_iff in H1. destruct H1 as (c1 & E1 & Hc1).
    apply in_map_iff in H2. destruct H2 as (c2 & E2 & Hc2).
    injection E1 as _ T1. injection E2 as _ T2.
    apply in_concat in Hc2. destruct Hc2 as (h & Hh & Hc2).
    apply In_nth_error in Hh. destruct Hh as [k Hk].
    destruct (Forall2_nth_right _ _ _ HF _ _ Hk) as (t' & Ht' & Hall & _).
    apply Hnotin. rewrite <- (Ht c1 Hc1), T1, <- T2, (Hall c2 Hc2).
    apply in_map, (nth_error_In _ _ Ht').
Qed.

Section Distinct.

Variable Frame : Type.
Variable IoU : Node -> Node -> Q.
Variable intensity_mean : Node -> list Frame -> list Q.
Variable intensity_std : Node -> list Frame -> list Q.
Variable np_sqrt : Q -> Q.

Lemma score_sources_distinct cur dw node pairs cands :
  NoDup (map id cur) ->
  NoDup (map fst (filter (fun x : nat * dist => negb (isinf (snd x))) pairs)) ->
  score IoU cur dw node pairs = Ok cands ->
  NoDup (map source_of cands).
Proof.
  intros Nid. revert cands; induction pairs as [|[j d] pairs IH]; simpl; intros cands ND H.
  - injection H as <-. constructor.
  - inv_bind H. rename v into neigh. inv_bind H. rename v into rest.
    apply take_Ok in E. destruct d as [d|]; simpl in ND.
    + injection H as <-. inversion ND as [|? ? Hn ND']; subst. simpl.
      constructor; [|apply IH; auto].
      intros Hin. apply Hn.
      apply in_map_iff in Hin. destruct Hin as (c & Ec & Hc).
      destruct (score_In _ _ _ _ _ _ _ E0 Hc) as (j' & d' & neigh' & Hp & Hj' & ->).
      unfold source_of in Ec. simpl in Ec.
      assert (j' = j).
      { rewrite NoDup_nth_error in Nid. apply Nid.
        - rewrite length_map. apply nth_error_Some. congruence.
        - rewrite !nth_error_map, E, Hj'. simpl. congruence. }
      subst j'.
      apply (in_map fst (filter (fun x : nat * dist => negb (isinf (snd x))) pairs)
                    (j, Finite d')).
      apply filter_In. split; [exact Hp | reflexivity].
    + injection H as <-. apply IH; auto.
Qed.

Lemma neighborhood_sources_distinct config cur node (qp : list (dist * nat)) frow hood :
  NoDup (map id cur) ->
  NoDup (map snd (filter (fun x : dist * nat => negb (isinf (fst x))) qp)) ->
  neighborhood IoU config cur node (map fst qp) (map snd qp) frow = Ok hood ->
  NoDup (map source_of hood).
Proof.
  intros Nid Nqp H. apply neighborhood_Ok in H. destruct H as (scored & Hs & ->).
  assert (Ns : NoDup (map source_of scored)).
  { unfold scored_candidates in Hs.
    inv_bind Hs. rename v into valid. inv_bind Hs. rename v into vn.
    inv_bind Hs. rename v into vd.
    eapply score_sources_distinct; [exact Nid | | exact Hs].
    assert (L : length (map snd qp) = length (map fst qp)) by (rewrite !length_map; auto).
    pose proof (select_combine _ _ _ _ _ L E0 E1) as Hsel.
    eapply select_filter_NoDup; [exact Hsel|].
    rewrite finite_slots_of_row. exact Nqp. }
  assert (Nsorted : NoDup (map source_of (Py.sorted_reverse tuple_lt scored))).
  { eapply Permutation_NoDup; [|exact Ns].
    apply Permutation_map. symmetry. apply sorted_perm. }
  unfold Py.slice_to. destruct (0 <=? max_neighbors config)%Z;
    apply NoDup_map_firstn, Nsorted.
Qed.

(** X15.  A run writes no link twice: when the ids identify the nodes of
    each time, no two links of the batch have the same source and the
    same target. *)
Theorem no_link_twice time config db (images : list (Image Frame)) scale db' :
  _process IoU intensity_mean intensity_std np_sqrt time config db images scale = Ok db' ->
  NoDup (map id (current_nodes db time)) ->
  NoDup (map id (next_nodes db time)) ->
  NoDup (map (fun l => (source_id l, target_id l)) (appended db db')).
Proof.
  intros H Ncur Nnext. apply process_Ok in H. destruct H as (H & _ & _).
  destruct (process_links_Ok _ _ _ _ _ _ _ _ _ _ _ H)
    as (pos & tree & dn & mask & moved & cands & P1 & P2 & P3 & P4 & P5 & P6 & P7).
  apply to_frame_Ok in P7. destruct P7 as [_ ->].
  destruct (link_loop_blocks _ _ _ _ _ _ _ _ P6) as (hoods & -> & HF).
  assert (L : length (next_shift pos) = length (next_nodes db time)).
  { destruct (positions_Ok _ _ _ _ _ P1) as (_ & _ & ->).
    unfold shift_rows, next_nodes. rewrite !length_map. reflexivity. }
  pose proof (translate_all_Forall2 _ _ _ _ P5 L) as HT.
  assert (Nmoved : NoDup (map id moved)).
  { replace (map id moved) with (map id (next_nodes db time)); [exact Nnext|].
    clear - HT. induction HT; simpl; congruence. }
  assert (HP : NoDup (map (fun c => (source_of c, target_of c)) (concat hoods))).
  { apply concat_pairs_distinct with (targets := moved); [exact Nmoved|].
    eapply Forall2_impl; [|exact HF].
    intros node hood (i & drow & nrow & frow & Hd & Hn & _ & _ & Hnb). split.
    - intros c Hc. eapply neighborhood_target; eauto.
    - destruct (KDTree_query_Ok _ _ _ _ _ _ P3) as [_ R].
      destruct (R i drow nrow Hd Hn) as (p & _ & -> & ->).
      eapply neighborhood_sources_distinct; [exact Ncur | | exact Hnb].
      apply query_point_distinct. }
  rewrite map_map.
  replace (map (fun c => (source_id (frame_row c), target_id (frame_row c))) (concat hoods))
    with (map (fun st : Z * Z => (inject_Z (fst st), inject_Z (snd st)))
              (map (fun c => (source_of c, target_of c)) (concat hoods))).
  - apply NoDup_map_injective; [|exact HP].
    intros [a b] [a' b'] E. simpl in E. injection E as -> ->.
    f_equal; lia.
  - rewrite map_map. apply map_ext. intros [[[w nd] src] tgt]. reflexivity.
Qed.

End Distinct.

Lemma no_link_twice_witness :
  NoDup (map (fun l => (source_id l, target_id l))
             (appended Scenario.store_colors Scenario.linked_two)).
Proof.
  apply (no_link_twice Instance.Frame Instance.IoU Instance.intensity_mean
           Instance.intensity_std Instance.sqrt 0 Instance.config_two
           Scenario.store_colors [] None Scenario.linked_two).
  - vm_compute; reflexivity.
  - simpl. repeat constructor; simpl; intuition discriminate.
  - simpl. repeat constructor; simpl; intuition discriminate.
Defined.

(** ** Features that do not tell the nodes apart *)

Lemma map2_In {A B C : Type} (f : A -> B -> C) (a : list A) (b : list B) (z : C) :
  In z (Np.map2 f a b) -> exists x y, In x a /\ In y b /\ z = f x y.
Proof.
  revert b; induction a as [|x a IH]; intros [|y b]; simpl; try contradiction.
  intros [<-|H].
  - exists x, y. auto.
  - destruct (IH b H) as (x' & y' & ? & ? & ?). exists x', y'. auto.
Qed.

Lemma map2_diag_In {A C : Type} (f : A -> A -> C) (a : list A) (z : C) :
  In z (Np.map2 f a a) -> exists x, In x a /\ z = f x x.
Proof.
  induction a as [|x a IH]; simpl; [contradiction|].
  intros [<-|H]; [eauto|]. destruct (IH H) as (x' & ? & ?). eauto.
Qed.

(** Equal features give a z-score of zero. *)
Lemma equal_features_pass (c sdev diff diff' : list Q) (z thr : Q) :
  0 <= thr ->
  Np.broadcast Qminus c c = Ok diff ->
  Np.inplace Qdiv diff sdev = Ok diff' ->
  Np.max (map Qabs diff') = Ok z ->
  Qle_bool z thr = true.
Proof.
  intros Hthr Hsub Hdiv Hmax.
  apply broadcast_same_length in Hsub; [|reflexivity]. subst diff.
  assert (Z0 : forall x, In x (Np.map2 Qminus c c) -> x == 0).
  { intros x Hx. apply map2_diag_In in Hx. destruct Hx as (y & _ & ->).
    unfold Qminus. apply Qplus_opp_r. }
  assert (Z1 : forall y, In y diff' -> y == 0).
  { intros y Hy. unfold Np.inplace in Hdiv.
    destruct (_ =? _).
    - injection Hdiv as <-. apply map2_In in Hy.
      destruct Hy as (x & s & Hx & _ & ->).
      unfold Qdiv. rewrite (Z0 x Hx). apply Qmult_0_l.
    - destruct sdev as [|s [|? ?]]; try discriminate. injection Hdiv as <-.
      apply in_map_iff in Hy. destruct Hy as (x & <- & Hx).
      unfold Qdiv. rewrite (Z0 x Hx). apply Qmult_0_l. }
  apply max_Ok in Hmax. destruct Hmax as [Hin _].
  apply in_map_iff in Hin. destruct Hin as (y & <- & Hy).
  apply Qle_bool_iff. rewrite (Z1 y Hy). exact Hthr.
Qed.

Lemma valid_of_finite (drow : list dist) (frow : list bool) :
  length frow = length drow ->
  (forall s d, nth_error drow s = Some (Finite d) -> nth_error frow s = Some true) ->
  Np.broadcast andb (map (fun d => negb (isinf d)) drow) frow
  = Ok (map (fun d => negb (isinf d)) drow).
Proof.
  intros L H. unfold Np.broadcast. rewrite length_map, <- L, Nat.eqb_refl. f_equal.
  revert frow L H; induction drow as [|d drow IH]; intros [|b frow] L H; simpl in *;
    try discriminate; [reflexivity|].
  rewrite IH; [|congruence | intros s d' Hs; apply (H (S s) d' Hs)].
  f_equal. destruct d as [d|]; simpl; [|reflexivity].
  specialize (H 0%nat d eq_refl). simpl in H. injection H as ->. reflexivity.
Qed.

Section EqualFeatures.

Variable Frame : Type.
Variable IoU : Node -> Node -> Q.
Variable intensity_mean : Node -> list Frame -> list Q.
Variable intensity_std : Node -> list Frame -> list Q.
Variable np_sqrt : Q -> Q.

(** The loop reads the colour entries of the finite slots only. *)
Lemma link_loop_all_true config cur moved D N F cands :
  (forall i drow nrow, nth_error D i = Some drow -> nth_error N i = Some nrow ->
     length nrow = length drow) ->
  (forall i drow frow, nth_error D i = Some drow -> nth_error F i = Some frow ->
     length frow = length drow
     /\ forall s d, nth_error drow s = Some (Finite d) -> nth_error frow s = Some true) ->
  link_loop IoU config cur moved D N F = Ok cands ->
  link_loop IoU config cur moved D N (map (map (fun _ => true)) N) = Ok cands.
Proof.
  revert D N F cands; induction moved as [|node moved IH]; intros D N F cands HN HF H;
    simpl in *; [exact H|].
  destruct D as [|d D]; [discriminate|].
  destruct N as [|n N]; [discriminate|].
  destruct F as [|f F]; [discriminate|]. simpl.
  inv_bind H. rename v into hood, E into Eh. inv_bind H. rename v into rest, E into Er.
  assert (Eh' : neighborhood IoU config cur node d n (map (fun _ => true) n) = Ok hood).
  { unfold neighborhood, scored_candidates in *.
    destruct (HF 0%nat d f eq_refl eq_refl) as [Lf Hf].
    rewrite (valid_of_finite d f Lf Hf) in Eh.
    rewrite valid_of_finite; [exact Eh | |].
    - rewrite length_map. apply (HN 0%nat d n eq_refl eq_refl).
    - intros s d' Hs. rewrite nth_error_map.
      assert (s < length n)%nat.
      { rewrite (HN 0%nat d n eq_refl eq_refl). apply nth_error_Some. congruence. }
      destruct (nth_error n s) eqn:En; [reflexivity|].
      apply nth_error_None in En. lia. }
  rewrite Eh'. simpl.
  rewrite (IH D N F rest); [exact H | | | exact Er].
  - intros i drow nrow. apply (HN (S i)).
  - intros i drow frow. apply (HF (S i)).
Qed.

(** X16.  Features that are equal for all nodes of the two times filter
    nothing: for a threshold that is not negative, a run with such images
    that completes writes what the run without images writes. *)
Theorem equal_features_do_not_filter time config db (images : list (Image Frame))
    scale db' c :
  0 <= z_score_threshold config ->
  (forall n, In n (current_nodes db time) ->
     intensity_mean n (map (fun image => image time) images) = c) ->
  (forall n, In n (next_nodes db time) ->
     intensity_mean n (map (fun image => image (time + 1)%Z) images) = c) ->
  _process IoU intensity_mean intensity_std np_sqrt time config db images scale = Ok db' ->
  _process IoU intensity_mean intensity_std np_sqrt time config db [] scale = Ok db'.
Proof.
  intros Hthr Hcur Hnext H.
  unfold _process in H. inv_bind H. rename v into df. injection H as <-.
  destruct (process_links_Ok _ _ _ _ _ _ _ _ _ _ _ E)
    as (pos & tree & dn & mask & moved & cands & P1 & P2 & P3 & P4 & P5 & P6 & P7).
  assert (A : link_loop IoU config (current_nodes db time) moved (fst dn) (snd dn)
                        (map (map (fun _ => true)) (snd dn)) = Ok cands).
  { apply link_loop_all_true with (F := mask); [| |exact P6].
    - intros i drow nrow Hd Hn.
      destruct (KDTree_query_row_length _ _ _ _ _ _ _ _ _ P3 Hd Hn). congruence.
    - intros i drow frow Hd Hf.
      destruct (color_filter_shape _ _ _ _ _ _ _ _ _ _ P4 _ _ Hf) as (nrow & Hn & Lf).
      destruct (KDTree_query_row_length _ _ _ _ _ _ _ _ _ P3 Hd Hn) as [Ld Ln].
      split; [congruence|]. intros s d Hs.
      assert (Hsl : (s < length frow)%nat).
      { rewrite Lf, Ln, <- Ld. apply nth_error_Some. congruence. }
      destruct (nth_error frow s) as [b|] eqn:Hb; [|apply nth_error_None in Hb; lia].
      f_equal. unfold color_filter in P4. destruct (0 <? length images).
      + inv_bind P4. destruct v as [|cf [|? ?]]; try discriminate.
        inv_bind P4. inv_bind P4.
        destruct v0 as [|nf [|sd [|? ?]]]; try discriminate.
        apply compute_features_one in E0. destruct E0 as [_ Ecf].
        apply compute_features_two in E2. destruct E2 as [Enf _].
        destruct (z_score_mask_entry _ _ _ _ _ _ _ _ P4 Hf)
          as (nrow' & f & sdev & Hn' & Hnf & _ & _ & Hent).
        rewrite Hn in Hn'; injection Hn' as <-.
        destruct (Hent s b Hb) as (j & cj & diff & diff' & z & Hj & Hcj & Hsub & Hdiv & Hmax & ->).
        destruct (KDTree_query_slot _ _ _ _ _ _ _ _ _ _ _ _ P3 Hd Hn Hs Hj)
          as (p & _ & [[Hinf _]|(q & pc & _ & Hpc & _)]); [discriminate|].
        assert (Hjn : (j < length (current_nodes db time))%nat).
        { destruct (KDTree_init_Ok _ _ P2) as [_ Hdata]. rewrite Hdata in Hpc.
          destruct (positions_Ok _ _ _ _ _ P1) as (_ & L & _). rewrite <- L.
          apply nth_error_Some. congruence. }
        assert (cj = c).
        { rewrite nth_error_app1 in Hcj by (rewrite Ecf, length_map; exact Hjn).
          rewrite Ecf, nth_error_map in Hcj.
          destruct (nth_error (current_nodes db time) j) as [nj|] eqn:Enj; [|discriminate].
          injection Hcj as <-. apply Hcur. eapply nth_error_In; eauto. }
        assert (f = c).
        { rewrite Enf, nth_error_map in Hnf.
          destruct (nth_error (next_nodes db time) i) as [ni|] eqn:Eni; [|discriminate].
          injection Hnf as <-. apply Hnext. eapply nth_error_In; eauto. }
        subst cj f. eapply equal_features_pass; eauto.
      + injection P4 as <-. rewrite nth_error_map in Hf.
        destruct (nth_error (snd dn) i) as [nrow0|]; [|discriminate].
        injection Hf as <-. rewrite nth_error_map in Hb.
        destruct (nth_error nrow0 s); [|discriminate]. injection Hb as <-. reflexivity. }
  unfold _process, process_links. rewrite P1. cbn [bind].
  unfold link_candidates. rewrite P2. cbn [bind]. rewrite P3. cbn [bind].
  unfold color_filter at 1. cbn [length Nat.ltb Nat.leb bind].
  rewrite P5. cbn [bind]. rewrite A. cbn [bind]. rewrite P7. reflexivity.
Qed.

End EqualFeatures.

Lemma equal_features_do_not_filter_witness :
  Instance.process 0 Instance.config Instance.store [] None = Ok Instance.linked.
Proof.
  apply (equal_features_do_not_filter Instance.Frame Instance.IoU Instance.intensity_mean
           Instance.intensity_std Instance.sqrt 0 Instance.config Instance.store
           [Scenario.flat] None Instance.linked [3]).
  - discriminate.
  - intros n _. reflexivity.
  - intros n _. reflexivity.
  - vm_compute; reflexivity.
Defined.

(** ** Pairs that are linked *)

Lemma enumerate_from_nth {A : Type} (l : list A) (i j : nat) (x : A) :
  nth_error l j = Some x -> In ((i + j)%nat, x) (Py.enumerate_from i l).
Proof.
  revert i j; induction l as [|y l IH]; intros i [|j] H; simpl in *; try discriminate.
  - injection H as <-. rewrite Nat.add_0_r. left; reflexivity.
  - right. replace (i + S j)%nat with (S i + j)%nat by lia. apply IH, H.
Qed.

(** A tree of at most [k] points returns every point below the radius. *)
Lemma query_point_complete (np_sqrt : Q -> Q) (tree : KDTree) k r p j pc :
  (length (data tree) <= k)%nat ->
  nth_error (data tree) j = Some pc ->
  distance np_sqrt p pc < r ->
  In (Finite (distance np_sqrt p pc), j) (query_point np_sqrt tree k r p).
Proof.
  intros Hk Hj Hr. unfold query_point.
  set (all := map _ (Py.enumerate (data tree))).
  set (within := filter _ all).
  set (sorted := Py.sorted _ within).
  apply in_or_app. left.
  apply (in_map (fun dj : Q * nat => (Finite (fst dj), snd dj)) _ (distance np_sqrt p pc, j)).
  rewrite firstn_all2.
  - apply sorted_In. apply filter_In. split; [|apply Qltb_true, Hr].
    unfold all.
    apply (in_map (fun jp : nat * list Q => (distance np_sqrt p (snd jp), fst jp))
                  _ (j, pc)).
    apply (enumerate_from_nth _ 0 j pc Hj).
  - unfold sorted. rewrite (Permutation_length (sorted_perm _ within)).
    unfold within.
    pose proof (filter_length_le (fun dj : Q * nat => Qltb (fst dj) r) all) as Hf.
    unfold all in *. rewrite length_map in Hf.
    assert (length (Py.enumerate (data tree)) = length (data tree)).
    { unfold Py.enumerate.
      rewrite <- (length_map fst), enumerate_from_fst. apply length_seq. }
    lia.
Qed.

Lemma select_nth_In {A : Type} (l : list A) (mask : list bool) sel s x :
  Np.select l mask = Ok sel ->
  nth_error l s = Some x -> nth_error mask s = Some true -> In x sel.
Proof.
  unfold Np.select. destruct (_ =? _); [|discriminate].
  intros H; injection H as <-. revert mask s.
  induction l as [|y l IH]; intros [|b mask] [|s] Hl Hm; simpl in *; try discriminate.
  - injection Hl as <-. injection Hm as ->. simpl. left; reflexivity.
  - destruct b; simpl; [right|]; eapply IH; eauto.
Qed.

Lemma select_sub {A : Type} (l : list A) (mask : list bool) sel x :
  Np.select l mask = Ok sel -> In x sel -> In x l.
Proof.
  unfold Np.select. destruct (_ =? _); [|discriminate].
  intros H; injection H as <-. intros Hx.
  apply in_map_iff in Hx. destruct Hx as ([y b] & <- & Hy).
  apply filter_In in Hy. destruct Hy as [Hy _]. eapply in_combine_l; eauto.
Qed.

Section Complete.

Variable Frame : Type.
Variable IoU : Node -> Node -> Q.
Variable intensity_mean : Node -> list Frame -> list Q.
Variable intensity_std : Node -> list Frame -> list Q.
Variable np_sqrt : Q -> Q.

Lemma score_complete cur dw node pairs cands j d neigh :
  score IoU cur dw node pairs = Ok cands ->
  In (j, Finite d) pairs -> nth_error cur j = Some neigh ->
  In (IoU node neigh - dw * d, - d, id neigh, id node) cands.
Proof.
  revert cands; induction pairs as [|[j' d'] pairs IH]; simpl; intros cands H Hin Hj;
    [contradiction|].
  inv_bind H. inv_bind H. apply take_Ok in E.
  destruct Hin as [Hin|Hin].
  - injection Hin as -> ->. rewrite Hj in E. injection E as <-.
    injection H as <-. left; reflexivity.
  - specialize (IH _ E0 Hin Hj). destruct d'; injection H as <-; [right|]; exact IH.
Qed.

Lemma score_length_finite cur dw node pairs cands :
  score IoU cur dw node pairs = Ok cands ->
  length cands = length (filter (fun x : nat * dist => negb (isinf (snd x))) pairs).
Proof.
  revert cands; induction pairs as [|[j d] pairs IH]; simpl; intros cands H.
  - injection H as <-. reflexivity.
  - inv_bind H. inv_bind H. destruct d; injection H as <-; simpl; rewrite (IH _ E0);
      reflexivity.
Qed.

(** The candidates of a row of the query result: no more than there are
    data points, and every finite slot with a [True] colour entry among
    them. *)
Lemma scored_candidates_of_row config cur node tree k r p frow scored :
  length cur = length (data tree) ->
  length frow = k ->
  scored_candidates IoU config cur node
    (map fst (query_point np_sqrt tree k r p))
    (map snd (query_point np_sqrt tree k r p)) frow = Ok scored ->
  (length scored <= length cur)%nat
  /\ forall s j d neigh,
       nth_error (query_point np_sqrt tree k r p) s = Some (Finite d, j) ->
       nth_error frow s = Some true ->
       nth_error cur j = Some neigh ->
       In (IoU node neigh - distance_weight config * d, - d, id neigh, id node) scored.
Proof.
  intros Lcur Lf H. set (qp := query_point np_sqrt tree k r p) in *.
  assert (Lqp : length qp = k) by apply query_point_length.
  unfold scored_candidates in H.
  inv_bind H. rename v into valid, E into Ev.
  inv_bind H. rename v into vn, E into En.
  inv_bind H. rename v into vd, E into Ed.
  apply broadcast_same_length in Ev; [|rewrite !length_map; congruence]. subst valid.
  assert (L : length (map snd qp) = length (map fst qp)) by (rewrite !length_map; auto).
  pose proof (select_combine _ _ _ _ _ L En Ed) as Hsel.
  split.
  - rewrite (score_length_finite _ _ _ _ _ H).
    rewrite <- (length_map fst), Lcur.
    assert (B : (length (map fst (filter (fun x : nat * dist => negb (isinf (snd x)))
                                         (combine vn vd)))
                 <= length (seq 0 (length (data tree))))%nat).
    { apply NoDup_incl_length.
      - eapply select_filter_NoDup; [exact Hsel|].
        rewrite finite_slots_of_row. apply query_point_distinct.
      - intros j Hj. apply in_map_iff in Hj. destruct Hj as ([j' d] & <- & Hjd).
        apply filter_In in Hjd. destruct Hjd as [Hjd Hfin]. simpl in *.
        apply (select_sub _ _ _ _ Hsel) in Hjd.
        apply In_nth_error in Hjd. destruct Hjd as [s Hs].
        apply nth_error_combine in Hs. destruct Hs as [Hs1 Hs2].
        rewrite nth_error_map in Hs1, Hs2.
        destruct (nth_error qp s) as [[d0 j0]|] eqn:Eq; [|discriminate].
        simpl in Hs1, Hs2. injection Hs1 as ->. injection Hs2 as ->.
        apply nth_error_In, query_point_In in Eq.
        destruct Eq as [[-> _]|(q & pc & _ & Hpc & _)]; [discriminate|].
        apply in_seq. split; [lia|]. simpl. apply nth_error_Some. congruence. }
    rewrite length_seq in B. exact B.
  - intros s j d neigh Hs Hf Hj.
    eapply score_complete; [exact H | | exact Hj].
    eapply select_nth_In; [exact Hsel | |].
    + apply nth_error_combine. rewrite !nth_error_map, Hs. auto.
    + rewrite map2_nth, nth_error_map, nth_error_map, Hs, Hf. reflexivity.
Qed.

Lemma link_loop_nth config cur moved D N F cands i node drow nrow frow :
  link_loop IoU config cur moved D N F = Ok cands ->
  nth_error moved i = Some node -> nth_error D i = Some drow ->
  nth_error N i = Some nrow -> nth_error F i = Some frow ->
  exists hood,
    neighborhood IoU config cur node drow nrow frow = Ok hood
    /\ forall c, In c hood -> In c cands.
Proof.
  revert D N F cands i; induction moved as [|node0 moved IH]; intros D N F cands i H;
    [intros Hm; destruct i; discriminate|].
  simpl in H.
  destruct D as [|d D]; [discriminate|].
  destruct N as [|n N]; [discriminate|].
  destruct F as [|f F]; [discriminate|].
  inv_bind H. inv_bind H. injection H as <-.
  destruct i as [|i]; simpl; intros Hm Hd Hn Hf.
  - injection Hm as <-; injection Hd as <-; injection Hn as <-; injection Hf as <-.
    exists v. split; [exact E|]. intros c Hc. apply in_or_app. left; exact Hc.
  - destruct (IH _ _ _ _ _ E0 Hm Hd Hn Hf) as (hood & Hh & Hin).
    exists hood. split; [exact Hh|]. intros c Hc. apply in_or_app. right; auto.
Qed.

Lemma link_loop_mask_row config cur moved D N F cands i node :
  link_loop IoU config cur moved D N F = Ok cands ->
  nth_error moved i = Some node -> exists frow, nth_error F i = Some frow.
Proof.
  revert D N F cands i; induction moved as [|node0 moved IH]; intros D N F cands i H Hm;
    [destruct i; discriminate|].
  simpl in H.
  destruct D as [|d D]; [discriminate|].
  destruct N as [|n N]; [discriminate|].
  destruct F as [|f F]; [discriminate|].
  inv_bind H. inv_bind H. destruct i as [|i]; simpl in *; [eauto|].
  eapply IH; eauto.
Qed.

(** A pair below the radius whose colour entries are [True] is linked
    when the cap does not bind. *)
Lemma eligible_pair_linked time config db (images : list (Image Frame)) scale df
    pos tree dn mask moved i j source target' p_next p_cur :
  process_links IoU intensity_mean intensity_std np_sqrt time config db images scale = Ok df ->
  positions (current_nodes db time) (next_nodes db time) (shift_rows db time) scale = Ok pos ->
  KDTree_init (current_pos pos) = Ok tree ->
  KDTree_query np_sqrt tree (next_pos pos) (2 * max_neighbors config)
               (max_distance config) = Ok dn ->
  color_filter intensity_mean intensity_std time config images
               (current_nodes db time) (next_nodes db time) (snd dn) = Ok mask ->
  translate_all (n_dim pos) (next_nodes db time) (next_shift pos) = Ok moved ->
  (Z.of_nat (length (current_nodes db time)) <= max_neighbors config)%Z ->
  nth_error (current_nodes db time) j = Some source ->
  nth_error moved i = Some target' ->
  nth_error (current_pos pos) j = Some p_cur ->
  nth_error (next_pos pos) i = Some p_next ->
  distance np_sqrt p_next p_cur < max_distance config ->
  (forall s, entry (snd dn) i s = Some j -> entry mask i s = Some true) ->
  In (mkLinkDB (IoU target' source
                - distance_weight config * distance np_sqrt p_next p_cur)
               (inject_Z (id source)) (inject_Z (id target'))) df.
Proof.
  intros H Hpos Htree Hq Hmask Hmoved Hcap Hs Ht Hpc Hpn Hnear Hcol.
  destruct (process_links_Ok _ _ _ _ _ _ _ _ _ _ _ H)
    as (pos0 & tree0 & dn0 & mask0 & moved0 & cands & P1 & P2 & P3 & P4 & P5 & P6 & P7).
  rewrite Hpos in P1; injection P1 as <-.
  rewrite Htree in P2; injection P2 as <-.
  rewrite Hq in P3; injection P3 as <-.
  rewrite Hmask in P4; injection P4 as <-.
  rewrite Hmoved in P5; injection P5 as <-.
  apply to_frame_Ok in P7. destruct P7 as [_ ->].
  destruct (KDTree_init_Ok _ _ Htree) as [_ Hdata].
  destruct (positions_Ok _ _ _ _ _ Hpos) as (_ & Lcur & _).
  set (k := Z.to_nat (2 * max_neighbors config)).
  set (r := max_distance config) in *.
  (* the rows of the next node *)
  assert (Hrow : exists drow nrow,
             nth_error (fst dn) i = Some drow /\ nth_error (snd dn) i = Some nrow).
  { unfold KDTree_query in Hq. destruct (_ <? 1)%Z; [discriminate|].
    inv_bind Hq. injection Hq as <-. simpl.
    apply mapM_Forall2 in E.
    destruct (Forall2_nth_left _ _ _ E _ _ Hpn) as (row & Hrow & _).
    rewrite !nth_error_map, Hrow. simpl. eauto. }
  destruct Hrow as (drow & nrow & Hd & Hn).
  destruct (KDTree_query_Ok _ _ _ _ _ _ Hq) as [_ R].
  destruct (R i drow nrow Hd Hn) as (p & Hp & Ed & En).
  rewrite Hpn in Hp. injection Hp as <-. fold k r in Ed, En.
  assert (Hfrow : exists frow, nth_error mask i = Some frow)
    by (eapply link_loop_mask_row; eauto).
  destruct Hfrow as (frow & Hf).
  destruct (color_filter_shape _ _ _ _ _ _ _ _ _ _ Hmask _ _ Hf) as (nrow' & Hn' & Lf).
  rewrite Hn in Hn'; injection Hn' as <-.
  destruct (link_loop_nth _ _ _ _ _ _ _ _ _ _ _ _ P6 Ht Hd Hn Hf) as (hood & Hh & Hin).
  apply neighborhood_Ok in Hh. destruct Hh as (scored & Hsc & ->).
  rewrite Ed, En in Hsc.
  assert (Lfk : length frow = k).
  { rewrite Lf, En, length_map. apply query_point_length. }
  destruct (scored_candidates_of_row _ _ _ _ _ _ _ _ _
              ltac:(rewrite Hdata; symmetry; exact Lcur) Lfk Hsc) as [Hlen Hall].
  (* the slot of the pair *)
  assert (Hslot : In (Finite (distance np_sqrt p_next p_cur), j)
                     (query_point np_sqrt tree k r p_next)).
  { apply query_point_complete; [| rewrite Hdata; exact Hpc | exact Hnear].
    rewrite Hdata, Lcur. unfold k. lia. }
  apply In_nth_error in Hslot. destruct Hslot as [s Hslot].
  assert (Hj : entry (snd dn) i s = Some j).
  { apply entry_Some. exists nrow. split; [exact Hn|].
    rewrite En, nth_error_map, Hslot. reflexivity. }
  apply Hcol, entry_Some in Hj. destruct Hj as (frow' & Hf' & Htrue).
  rewrite Hf in Hf'; injection Hf' as <-.
  pose proof (Hall s j _ source Hslot Htrue Hs) as Hc.
  change (In (frame_row (IoU target' source
                         - distance_weight config * distance np_sqrt p_next p_cur,
                         - distance np_sqrt p_next p_cur, id source, id target'))
             (map frame_row cands)).
  apply in_map, Hin.
  unfold Py.slice_to. destruct (Z.leb_spec 0 (max_neighbors config)); [|lia].
  rewrite firstn_all2.
  - apply sorted_In. exact Hc.
  - unfold Py.sorted_reverse. rewrite (Permutation_length (sorted_perm _ scored)). lia.
Qed.

End Complete.

Section Linked.

Variable Frame : Type.
Variable IoU : Node -> Node -> Q.
Variable intensity_mean : Node -> list Frame -> list Q.
Variable intensity_std : Node -> list Frame -> list Q.
Variable np_sqrt : Q -> Q.

(** X17.  Without images and with no more current nodes than
    [max_neighbors], nothing is lost: a run that completes links every
    current node to every next node whose aligned and scaled position is
    nearer than [max_distance], with the weight of line 157. *)
Theorem near_pairs_are_linked time config db scale db' pos moved
    i j source target' p_next p_cur :
  _process IoU intensity_mean intensity_std np_sqrt time config db
           (@nil (Image Frame)) scale = Ok db' ->
  positions (current_nodes db time) (next_nodes db time) (shift_rows db time) scale = Ok pos ->
  translate_all (n_dim pos) (next_nodes db time) (next_shift pos) = Ok moved ->
  (Z.of_nat (length (current_nodes db time)) <= max_neighbors config)%Z ->
  nth_error (current_nodes db time) j = Some source ->
  nth_error moved i = Some target' ->
  nth_error (current_pos pos) j = Some p_cur ->
  nth_error (next_pos pos) i = Some p_next ->
  distance np_sqrt p_next p_cur < max_distance config ->
  In (mkLinkDB (IoU target' source
                - distance_weight config * distance np_sqrt p_next p_cur)
               (inject_Z (id source)) (inject_Z (id target')))
     (appended db db').
Proof.
  intros H Hpos Hmoved Hcap Hs Ht Hpc Hpn Hnear.
  apply process_Ok in H. destruct H as (H & _ & _).
  destruct (process_links_Ok _ _ _ _ _ _ _ _ _ _ _ H)
    as (pos0 & tree & dn & mask & moved0 & cands & P1 & P2 & P3 & P4 & P5 & _ & _).
  rewrite Hpos in P1; injection P1 as <-.
  rewrite Hmoved in P5; injection P5 as <-.
  eapply eligible_pair_linked; eauto.
  intros s Hj. unfold color_filter in P4. simpl in P4. injection P4 as <-.
  unfold entry in *. rewrite nth_error_map.
  destruct (nth_error (snd dn) i) as [nrow|]; [|discriminate]. simpl.
  rewrite nth_error_map, Hj. reflexivity.
Qed.

(** X18.  With images and with no more current nodes than
    [max_neighbors], a run that completes links every current node to
    every next node that is nearer than [max_distance] and passes the
    colour test with it.  The features have one value per channel. *)
Theorem near_pairs_of_one_color_are_linked time config db (images : list (Image Frame))
    scale db' pos moved i j source target target' p_next p_cur :
  _process IoU intensity_mean intensity_std np_sqrt time config db images scale = Ok db' ->
  positions (current_nodes db time) (next_nodes db time) (shift_rows db time) scale = Ok pos ->
  translate_all (n_dim pos) (next_nodes db time) (next_shift pos) = Ok moved ->
  images <> [] ->
  (forall n fr, length (intensity_mean n fr) = length fr) ->
  (forall n fr, length (intensity_std n fr) = length fr) ->
  (Z.of_nat (length (current_nodes db time)) <= max_neighbors config)%Z ->
  nth_error (current_nodes db time) j = Some source ->
  nth_error (next_nodes db time) i = Some target ->
  nth_error moved i = Some target' ->
  nth_error (current_pos pos) j = Some p_cur ->
  nth_error (next_pos pos) i = Some p_next ->
  distance np_sqrt p_next p_cur < max_distance config ->
  passes_color (z_score_threshold config)
    (intensity_mean target (map (fun image => image (time + 1)%Z) images))
    (intensity_mean source (map (fun image => image time) images))
    (intensity_std target (map (fun image => image (time + 1)%Z) images)) ->
  In (mkLinkDB (IoU target' source
                - distance_weight config * distance np_sqrt p_next p_cur)
               (inject_Z (id source)) (inject_Z (id target')))
     (appended db db').
Proof.
  intros H Hpos Hmoved Himg Hmean Hstd Hcap Hs Htg Ht Hpc Hpn Hnear Hpass.
  apply process_Ok in H. destruct H as (H & _ & _).
  destruct (process_links_Ok _ _ _ _ _ _ _ _ _ _ _ H)
    as (pos0 & tree & dn & mask & moved0 & cands & P1 & P2 & P3 & P4 & P5 & _ & _).
  rewrite Hpos in P1; injection P1 as <-.
  rewrite Hmoved in P5; injection P5 as <-.
  eapply eligible_pair_linked; eauto.
  intros s Hj.
  assert (Hc : nth_error
                 (map (fun c => intensity_mean c (map (fun image => image time) images))
                      (current_nodes db time) ++ [repeat 0 (length images)]) j
               = Some (intensity_mean source (map (fun image => image time) images))).
  { rewrite nth_error_app1.
    - rewrite nth_error_map, Hs. reflexivity.
    - rewrite length_map. apply nth_error_Some. congruence. }
  destruct (color_entry _ _ _ _ _ _ _ _ _ _ _ _ _ _ _ P4 Hmean Hstd Himg Htg Hj Hc)
    as (b & Hb & Hiff).
  rewrite Hb. f_equal. apply Hiff, Hpass.
Qed.

End Linked.

Lemma near_pairs_are_linked_witness :
  In (mkLinkDB (Instance.IoU Instance.C Instance.A
                - distance_weight Instance.config_two
                  * distance Instance.sqrt [8; 9] [5; 5])
               (inject_Z (id Instance.A)) (inject_Z (id Instance.C)))
     (appended Instance.store Instance.linked).
Proof.
  apply (near_pairs_are_linked Instance.Frame Instance.IoU Instance.intensity_mean
           Instance.intensity_std Instance.sqrt 0 Instance.config_two Instance.store
           None Instance.linked Instance.pos0 [Instance.C] 0%nat 0%nat);
    reflexivity.
Defined.

Lemma near_pairs_of_one_color_are_linked_witness :
  In (mkLinkDB (Instance.IoU Instance.C Instance.A
                - distance_weight (mkLinkingConfig 2 6 (1 # 10) 6)
                  * distance Instance.sqrt [8; 9] [5; 5])
               (inject_Z (id Instance.A)) (inject_Z (id Instance.C)))
     (appended Instance.store Instance.linked).
Proof.
  apply (near_pairs_of_one_color_are_linked Instance.Frame Instance.IoU
           Instance.intensity_mean Instance.intensity_std Instance.sqrt 0
           (mkLinkingConfig 2 6 (1 # 10) 6) Instance.store [Instance.by_id]
           None Instance.linked Instance.pos0 [Instance.C] 0%nat 0%nat
           Instance.A Instance.C Instance.C);
    try reflexivity.
  - discriminate.
  - intros n fr. apply length_map.
  - intros n fr. apply length_map.
  - exists (Qabs (7 - 1) / floor_std 0). split; [|vm_compute; discriminate].
    split.
    + eexists. split; [left; reflexivity | reflexivity].
    + intros y [<-|[]]. apply Qle_refl.
Defined.
